(** * go-crypto-winnative, package cng: provider cache, key lengths, AES-GCM

    A shallow embedding of [cng/cng.go] (the helpers [lenU32],
    [loadOrStoreAlg], [getKeyLengths], [keyIsAllowed]) and of the AES-GCM
    modes exercised by [cng/aes_test.go].

    Conventions.
    - Go's [uint32] and [int] are integers in [Z]; the only arithmetic on
      [uint32] in these functions is one subtraction, whose wrap-around is
      written out ([uint32_sub]).
    - A Go result pair [(v, err)] is a value of [result]: [Ok v] when
      [err == nil], [Err e] otherwise.
    - A Go function that may panic returns an [outcome].
    - [sync.Map] is a [gmap]; its methods are atomic, so a goroutine's
      progress through [loadOrStoreAlg] is a sequence of atomic steps. *)

From Stdlib Require Import ZArith Lia.
From Stdlib.Strings Require Import Byte.
From stdpp Require Import gmap strings list.

Local Open Scope Z_scope.

(** ** Go values *)

Inductive error : Type :=
  | errors_New (msg : string)      (* errors.New(msg) *)
  | NTStatus (code : Z).           (* a failure status of the native backend *)

Inductive result (A : Type) : Type :=
  | Ok (a : A)
  | Err (e : error).
Arguments Ok {A} a.
Arguments Err {A} e.

Inductive outcome (A : Type) : Type :=
  | Return (a : A)
  | Panic.
Arguments Return {A} a.
Arguments Panic {A}.

Definition is_Err {A} (r : result A) : bool :=
  match r with Ok _ => false | Err _ => true end.

#[global] Instance error_eq_dec : EqDecision error.
Proof. solve_decision. Defined.

#[global] Instance byte_eq_dec' : EqDecision byte := byte_eq_dec.

(** [len(s)] of a Go slice, as an [int]. *)
Definition len {A} (s : list A) : Z := Z.of_nat (length s).

Definition math_MaxUint32 : Z := 4294967295.

Definition is_uint32 (z : Z) : Prop := 0 ≤ z ≤ math_MaxUint32.

(** [a - b] on [uint32]. *)
Definition uint32_sub (a b : Z) : Z := (a - b) mod 2 ^ 32.

(** ** cng.go: lenU32 *)

(** The body of [lenU32] on the slice's length. *)
Definition clampU32 (n : Z) : Z :=
  if n >? math_MaxUint32 then math_MaxUint32 else n.

Definition lenU32 (s : list byte) : Z := clampU32 (len s).

(** ** cng.go: key lengths *)

(** [bcrypt.KEY_LENGTHS_STRUCT]: three [uint32] fields. *)
Record KEY_LENGTHS_STRUCT : Type := {
  MinLength : Z;
  MaxLength : Z;
  Increment : Z;
}.

Definition wf_KEY_LENGTHS (l : KEY_LENGTHS_STRUCT) : Prop :=
  is_uint32 (MinLength l) ∧ is_uint32 (MaxLength l) ∧ is_uint32 (Increment l).

Definition HANDLE := Z.
Definition ALG_HANDLE := Z.

(** What [bcrypt.GetProperty(h, KEY_LENGTHS, ...)] leaves in the caller's
    struct, or the status it failed with. *)
Class KeyLengthsProperty := GetProperty_KEY_LENGTHS : HANDLE → result KEY_LENGTHS_STRUCT.

Definition invalid_KEY_LENGTHS (lengths : KEY_LENGTHS_STRUCT) : bool :=
  (MinLength lengths >? MaxLength lengths)
  || ((Increment lengths =? 0) && negb (MinLength lengths =? MaxLength lengths)).

Definition getKeyLengths `{KeyLengthsProperty} (h : HANDLE) : result KEY_LENGTHS_STRUCT :=
  match GetProperty_KEY_LENGTHS h with
  | Err e => Err e
  | Ok lengths =>
      if invalid_KEY_LENGTHS lengths
      then Err (errors_New "invalid BCRYPT_KEY_LENGTHS_STRUCT")
      else Ok lengths
  end.

Definition keyIsAllowed (lengths : KEY_LENGTHS_STRUCT) (bits : Z) : bool :=
  if (bits <? MinLength lengths) || (bits >? MaxLength lengths) then false
  else if Increment lengths =? 0 then bits =? MinLength lengths
  else Z.rem (uint32_sub bits (MinLength lengths)) (Increment lengths) =? 0.

(** The constraints AES reports: 128, 192 and 256 bit keys. *)
Definition aes_lengths : KEY_LENGTHS_STRUCT :=
  {| MinLength := 128; MaxLength := 256; Increment := 64 |}.

(** ** cng.go: the provider cache *)

(** The type of the cache key [entryKey]: algorithm id, open flags, chaining
    mode. *)
Abbreviation cacheKey := (string * Z * string)%type.

(** A call made to the backend, with what it answered. *)
Inductive call : Type :=
  | OpenAlgorithmProvider (id : string) (flags : Z) (r : result ALG_HANDLE)
  | CloseAlgorithmProvider (h : ALG_HANDLE).

(** The handles open after a log of calls (newest call first). *)
Fixpoint open_handles (log : list call) : gset ALG_HANDLE :=
  match log with
  | [] => ∅
  | OpenAlgorithmProvider _ _ (Ok h) :: log' => {[ h ]} ∪ open_handles log'
  | OpenAlgorithmProvider _ _ (Err _) :: log' => open_handles log'
  | CloseAlgorithmProvider h :: log' => open_handles log' ∖ {[ h ]}
  end.

(** The process state [loadOrStoreAlg] reads and writes: the package
    variable [algCache] and the backend, seen through the log of calls. *)
Record World (V : Type) : Type := mkWorld {
  algCache : gmap cacheKey V;
  backend_log : list call;
}.
Arguments mkWorld {V} _ _.
Arguments algCache {V} _.
Arguments backend_log {V} _.

(** [sync.Map.Load] and [sync.Map.LoadOrStore]. *)
Definition Map_Load {V} (m : gmap cacheKey V) (k : cacheKey) : option V := m !! k.

Definition Map_LoadOrStore {V} (m : gmap cacheKey V) (k : cacheKey) (v : V)
  : V * bool * gmap cacheKey V :=
  match m !! k with
  | Some existing => (existing, true, m)
  | None => (v, false, <[k := v]> m)
  end.

(** The backend's answer to [bcrypt.OpenAlgorithmProvider(&h, id, nil, flags)],
    which may depend on everything it was asked before. *)
Class Provider := bcrypt_OpenAlgorithmProvider : string → Z → list call → result ALG_HANDLE.

Definition do_open {V} `{Provider} (id : string) (flags : Z) (w : World V)
  : result ALG_HANDLE * World V :=
  let r := bcrypt_OpenAlgorithmProvider id flags (backend_log w) in
  (r, mkWorld (algCache w) (OpenAlgorithmProvider id flags r :: backend_log w)).

Definition do_close {V} (h : ALG_HANDLE) (w : World V) : World V :=
  mkWorld (algCache w) (CloseAlgorithmProvider h :: backend_log w).

Definition newAlgEntryFn (V : Type) : Type := ALG_HANDLE → result V.

Definition loadOrStoreAlg {V} `{Provider}
    (id : string) (flags : Z) (mode : string) (fn : newAlgEntryFn V) (w : World V)
  : result V * World V :=
  let entryKey := (id, flags, mode) in
  match Map_Load (algCache w) entryKey with
  | Some v => (Ok v, w)
  | None =>
      match do_open id flags w with
      | (Err err, w1) => (Err err, w1)
      | (Ok h, w1) =>
          match fn h with
          | Err err => (Err err, do_close h w1)
          | Ok v =>
              match Map_LoadOrStore (algCache w1) entryKey v with
              | (existing, true, m) =>
                  (Ok existing, do_close h (mkWorld m (backend_log w1)))
              | (_, false, m) => (Ok v, mkWorld m (backend_log w1))
              end
          end
      end
  end.

(** ** cng.go: concurrent callers of loadOrStoreAlg

    Goroutines that call [loadOrStoreAlg] share [algCache] and the backend.
    Each call of [Load], [OpenAlgorithmProvider], [fn], [LoadOrStore] and
    [CloseAlgorithmProvider] is one atomic step; a schedule chooses which
    goroutine moves next. *)

Record Caller (V : Type) : Type := mkCaller {
  c_id : string;
  c_flags : Z;
  c_mode : string;
  c_fn : newAlgEntryFn V;
}.
Arguments mkCaller {V} _ _ _ _.
Arguments c_id {V} _.
Arguments c_flags {V} _.
Arguments c_mode {V} _.
Arguments c_fn {V} _.

Definition caller_key {V} (c : Caller V) : cacheKey := (c_id c, c_flags c, c_mode c).

(** Where a goroutine stands in the body of [loadOrStoreAlg]. *)
Inductive pc (V : Type) : Type :=
  | AtLoad                                        (* algCache.Load(entryKey) *)
  | AtOpen                                        (* bcrypt.OpenAlgorithmProvider *)
  | AtFn (h : ALG_HANDLE)                         (* fn(h) *)
  | AtCloseFailed (h : ALG_HANDLE) (err : error)  (* close after fn failed *)
  | AtLoadOrStore (h : ALG_HANDLE) (v : V)        (* algCache.LoadOrStore *)
  | AtCloseLoser (h : ALG_HANDLE) (existing : V)  (* close after losing the race *)
  | Returned (r : result V).
Arguments AtLoad {V}.
Arguments AtOpen {V}.
Arguments AtFn {V} h.
Arguments AtCloseFailed {V} h err.
Arguments AtLoadOrStore {V} h v.
Arguments AtCloseLoser {V} h existing.
Arguments Returned {V} r.

(** One atomic step of a goroutine; [None] once it has returned. *)
Definition step_caller {V} `{Provider} (c : Caller V) (p : pc V) (w : World V)
  : option (pc V * World V) :=
  match p with
  | AtLoad =>
      match Map_Load (algCache w) (caller_key c) with
      | Some v => Some (Returned (Ok v), w)
      | None => Some (AtOpen, w)
      end
  | AtOpen =>
      match do_open (c_id c) (c_flags c) w with
      | (Err err, w1) => Some (Returned (Err err), w1)
      | (Ok h, w1) => Some (AtFn h, w1)
      end
  | AtFn h =>
      match c_fn c h with
      | Err err => Some (AtCloseFailed h err, w)
      | Ok v => Some (AtLoadOrStore h v, w)
      end
  | AtCloseFailed h err => Some (Returned (Err err), do_close h w)
  | AtLoadOrStore h v =>
      match Map_LoadOrStore (algCache w) (caller_key c) v with
      | (existing, true, m) => Some (AtCloseLoser h existing, mkWorld m (backend_log w))
      | (_, false, m) => Some (Returned (Ok v), mkWorld m (backend_log w))
      end
  | AtCloseLoser h existing => Some (Returned (Ok existing), do_close h w)
  | Returned _ => None
  end.

Record Config (V : Type) : Type := mkConfig {
  world : World V;
  goroutines : list (Caller V * pc V);
}.
Arguments mkConfig {V} _ _.
Arguments world {V} _.
Arguments goroutines {V} _.

(** Goroutine [i] takes a step, if it exists and has not returned. *)
Definition step {V} `{Provider} (i : nat) (cfg : Config V) : Config V :=
  match goroutines cfg !! i with
  | Some (c, p) =>
      match step_caller c p (world cfg) with
      | Some (p', w') => mkConfig w' (<[i := (c, p')]> (goroutines cfg))
      | None => cfg
      end
  | None => cfg
  end.

Definition run {V} `{Provider} (schedule : list nat) (cfg : Config V) : Config V :=
  foldl (λ cfg i, step i cfg) cfg schedule.

(** The process starts with an empty cache and no call made yet. *)
Definition start {V} (callers : list (Caller V)) : Config V :=
  mkConfig (mkWorld ∅ []) ((λ c, (c, AtLoad)) <$> callers).



(** The handle a goroutine has opened and neither closed nor handed to the cache. *)
Definition held {V} (t : Caller V * pc V) : option ALG_HANDLE :=
  match t.2 with
  | AtFn h | AtCloseFailed h _ | AtLoadOrStore h _ | AtCloseLoser h _ => Some h
  | AtLoad | AtOpen | Returned _ => None
  end.

(** The handles goroutines hold: opened, not closed, not handed to the cache. *)
Definition held_handles {V} (gs : list (Caller V * pc V)) : list ALG_HANDLE :=
  omap held gs.



(** The backend never answers an open with a handle that is still open. *)
Definition fresh_handles `{Provider} : Prop :=
  ∀ id flags log h,
    bcrypt_OpenAlgorithmProvider id flags log = Ok h → h ∉ open_handles log.

(** The largest handle a log mentions as opened. *)
Fixpoint max_handle (log : list call) : Z :=
  match log with
  | [] => 0
  | OpenAlgorithmProvider _ _ (Ok h) :: log' => Z.max h (max_handle log')
  | _ :: log' => max_handle log'
  end.

(** A backend for examples: it hands out the handle after the largest one it
    has opened, and refuses the algorithm whose name is empty. *)
Definition counting_provider : Provider :=
  λ id _ log,
    if decide (id = ""%string) then Err (NTStatus 3221226021)
    else Ok (max_handle log + 1).

(** A constructor for examples: it rejects the handle 2. *)
Definition picky_fn : newAlgEntryFn Z :=
  λ h, if h =? 2 then Err (errors_New "no such mode") else Ok (h * 10).

Definition empty_world : World Z := mkWorld ∅ [].

(** A world in which a handle was opened and closed again. *)
Definition busy_world : World Z :=
  mkWorld ∅ [CloseAlgorithmProvider 1; OpenAlgorithmProvider "RNG" 0 (Ok 1)].

(** Two goroutines asking for the same provider, and a schedule on which
    both miss the cache and open a handle before either stores: the second
    goroutine stores first, the first one loses, closes its handle and takes
    the value of the second. *)
Definition race_callers : list (Caller Z) :=
  [ mkCaller "AES" 0 "ChainingModeGCM" (λ h, Ok (h * 10));
    mkCaller "AES" 0 "ChainingModeGCM" (λ h, Ok (h * 10)) ].

Definition race_schedule : list nat := [0; 1; 0; 1; 0; 1; 1; 0; 0]%nat.

(** ** AES-GCM (aes_test.go exercises it; the modes themselves are in aes.go) *)

Definition KEY_HANDLE := Z.

(** Modelled from the spec: the backend's AEAD operations (internal/bcrypt)
    are missing; section 6 lists "AEAD encrypt/decrypt given key, nonce,
    associated data, tag buffer".  [bcrypt_Encrypt kh nonce aad tagLen plaintext]
    is the ciphertext and the tag; [bcrypt_Decrypt kh nonce aad tag ciphertext]
    is what the backend wrote to the output buffer and whether the tag
    verified.  [maxPlaintextLen] is the largest plaintext a seal accepts. *)
Class AEAD : Type := {
  bcrypt_Encrypt : KEY_HANDLE → list byte → list byte → nat → list byte → list byte * list byte;
  bcrypt_Decrypt : KEY_HANDLE → list byte → list byte → list byte → list byte → list byte * bool;
  maxPlaintextLen : Z;
}.

(** What the modes rely on: the ciphertext is as long as the plaintext, the
    tag has the length asked for, and decrypting what was encrypted, with the
    same nonce and associated data, verifies and gives the plaintext back. *)
Definition AEAD_correct `{AEAD} : Prop :=
  ∀ kh nonce aad tagLen plaintext,
    let r := bcrypt_Encrypt kh nonce aad tagLen plaintext in
    length r.1 = length plaintext
    ∧ length r.2 = tagLen
    ∧ bcrypt_Decrypt kh nonce aad r.2 r.1 = (plaintext, true).

(** Modelled from the spec: the constants aes_test.go names are declared in
    aes.go; section 4.4 gives the standard nonce length as 12 bytes and the
    standard tag length as 16 bytes. *)
Definition gcmStandardNonceSize : Z := 12.
Definition gcmTagSize : Z := 16.

(** Modelled from the spec: the GCM mode (aes.go) is missing.  Section 4.4:
    "Constructed with a key handle and two sizes: nonce length ... and tag
    length". *)
Record GCMMode : Type := mkGCM {
  gcm_kh : KEY_HANDLE;
  nonceLength : Z;
  tagLength : Z;
}.

(** Modelled from the spec: [NewGCM] (aes.go) is missing.  Section 4.4:
    "Constructed with a key handle and two sizes ...  Construction fails if
    both sizes deviate from standard simultaneously". *)
Definition NewGCM (kh : KEY_HANDLE) (nonceSize tagSize : Z) : result GCMMode :=
  if negb (nonceSize =? gcmStandardNonceSize) && negb (tagSize =? gcmTagSize)
  then Err (errors_New "GCM tag and nonce sizes are both non-standard")
  else Ok (mkGCM kh nonceSize tagSize).

(** Modelled from the spec: [Seal] of the GCM mode (aes.go) is missing.
    Section 4.4: the output is ciphertext‖tag, appended to [dst]; the call is
    fatal "if len(nonce) != nonceLength or plaintext length exceeds the
    platform's maximum buffer size". *)
Definition GCM_Seal `{AEAD} (g : GCMMode) (dst nonce plaintext additionalData : list byte)
  : outcome (list byte) :=
  if negb (len nonce =? nonceLength g) then Panic
  else if len plaintext >? maxPlaintextLen then Panic
  else
    let r := bcrypt_Encrypt (gcm_kh g) nonce additionalData (Z.to_nat (tagLength g)) plaintext in
    Return (dst ++ r.1 ++ r.2).

(** Modelled from the spec: [errOpen] is declared in aes.go; it is the
    "distinguished authentication-failure error" of section 4.4. *)
Definition errOpen : error := errors_New "cipher: message authentication failed".

(** What a call of [Open] leaves behind: the result pair, and the bytes of
    the output buffer it worked in. *)
Record Opened : Type := mkOpened {
  opened : result (list byte);
  out_buffer : list byte;
}.

(** Modelled from the spec: [Open] of the GCM mode (aes.go) is missing.
    Section 4.4: "splits trailing tagLength bytes as the tag, decrypts, and
    verifies authentication; on tag mismatch or malformed input, returns a
    distinguished authentication-failure error ... and any partial output
    buffer is cleared before returning the error". *)
Definition GCM_Open `{AEAD} (g : GCMMode) (dst nonce ciphertext additionalData : list byte)
  : Opened :=
  if len ciphertext <? tagLength g then mkOpened (Err errOpen) []
  else
    let n := (length ciphertext - Z.to_nat (tagLength g))%nat in
    let tag := drop n ciphertext in
    let ciphertext := take n ciphertext in
    let r := bcrypt_Decrypt (gcm_kh g) nonce additionalData tag ciphertext in
    if r.2 then mkOpened (Ok (dst ++ r.1)) r.1
    else mkOpened (Err errOpen) (replicate (length r.1) x00).

(** *** The TLS record mode *)

(** Modelled from the spec: the TLS mode (aes.go) is missing.  Section 3: it
    "adds a monotonically increasing minimum next nonce value (96-bit,
    compared as an unsigned big-endian integer)". *)
Record GCMTLS : Type := mkGCMTLS {
  tls_gcm : GCMMode;
  minNextNonce : Z;
}.

(** A byte string read as a big-endian unsigned integer. *)
Definition bigUint (b : list byte) : Z :=
  foldl (λ acc x, acc * 256 + Z.of_N (Byte.to_N x)) 0 b.

(** The sequence counter of a TLS nonce (section 3: "12 bytes, first 4 bytes
    fixed/implicit, last 8 bytes a big-endian sequence counter"). *)
Definition gcmTlsFixedNonceSize : nat := 4.
Definition seqCounter (nonce : list byte) : Z := bigUint (drop gcmTlsFixedNonceSize nonce).

Definition maxUint64 : Z := 2 ^ 64 - 1.

(** Modelled from the spec: [NewGCMTLS] (aes.go) is missing.  Section 4.5:
    "Wraps a GCMMode fixed to nonce length 12 / tag length 16 ...  Holds the
    smallest nonce value not yet consumed ... initialized to zero". *)
Definition NewGCMTLS (kh : KEY_HANDLE) : result GCMTLS :=
  Ok (mkGCMTLS (mkGCM kh gcmStandardNonceSize gcmTagSize) 0).

(** Modelled from the spec: [Seal] of the TLS mode (aes.go) is missing.
    Section 4.5: "before calling the underlying AEAD seal, compares the
    supplied nonce (as a 96-bit big-endian integer) against the stored
    minimum; if the nonce is strictly less than the minimum, this is a fatal
    precondition violation ...  On success, the stored minimum becomes
    nonce + 1".  The second check is the one [TestSealAndOpenTLS]
    (aes_test.go, lines 100-102) demands: a seal whose sequence counter is
    all ones panics, although that nonce is above the minimum. *)
Definition GCMTLS_Seal `{AEAD} (g : GCMTLS) (dst nonce plaintext additionalData : list byte)
  : outcome (list byte * GCMTLS) :=
  if bigUint nonce <? minNextNonce g then Panic
  else if seqCounter nonce =? maxUint64 then Panic
  else
    match GCM_Seal (tls_gcm g) dst nonce plaintext additionalData with
    | Panic => Panic
    | Return out => Return (out, mkGCMTLS (tls_gcm g) (bigUint nonce + 1))
    end.

(** Modelled from the spec: [Open] of the TLS mode (aes.go) is missing.
    Section 4.5: "open performs plain AEAD open with no sequence tracking". *)
Definition GCMTLS_Open `{AEAD} (g : GCMTLS) (dst nonce ciphertext additionalData : list byte)
  : Opened :=
  GCM_Open (tls_gcm g) dst nonce ciphertext additionalData.

(** A run of seals on one instance, as a test drives it: a seal that panics
    is recovered from ([assertPanic]) and leaves the instance as it was.  The
    result lists, per seal, whether it panicked, and the final instance. *)
Fixpoint seal_each `{AEAD} (g : GCMTLS) (nonces : list (list byte))
    (plaintext additionalData : list byte) : list bool * GCMTLS :=
  match nonces with
  | [] => ([], g)
  | nonce :: rest =>
      match GCMTLS_Seal g [] nonce plaintext additionalData with
      | Panic =>
          let r := seal_each g rest plaintext additionalData in (true :: r.1, r.2)
      | Return (_, g') =>
          let r := seal_each g' rest plaintext additionalData in (false :: r.1, r.2)
      end
  end.

(** *** A stand-in backend for running the tests

    Not AES: a byte-wise stream cipher with a checksum for a tag.  It meets
    [AEAD_correct], which is all the modes ask of the backend, and its tag
    depends on the key handle, the nonce, the associated data and the
    ciphertext. *)

Definition byte_of_Z (z : Z) : byte :=
  default x00 (Byte.of_N (Z.to_N (z mod 256))).

Definition byte_xor (a b : byte) : byte :=
  let '(a0, (a1, (a2, (a3, (a4, (a5, (a6, a7))))))) := Byte.to_bits a in
  let '(b0, (b1, (b2, (b3, (b4, (b5, (b6, b7))))))) := Byte.to_bits b in
  Byte.of_bits (xorb a0 b0, (xorb a1 b1, (xorb a2 b2, (xorb a3 b3,
               (xorb a4 b4, (xorb a5 b5, (xorb a6 b6, xorb a7 b7))))))).

Fixpoint stream_xor (seed : Z) (data : list byte) : list byte :=
  match data with
  | [] => []
  | b :: rest => byte_xor b (byte_of_Z seed) :: stream_xor (seed + 1) rest
  end.

Definition byte_sum (l : list byte) : Z :=
  foldr (λ b acc, Z.of_N (Byte.to_N b) + acc) 0 l.

Definition checksum_tag (kh : KEY_HANDLE) (nonce aad ciphertext : list byte) (tagLen : nat)
  : list byte :=
  (λ j, byte_of_Z (kh + byte_sum nonce + 3 * byte_sum aad + len aad
                   + 5 * byte_sum ciphertext + Z.of_nat j)) <$> seq 0 tagLen.

Definition stream_aead : AEAD := {|
  bcrypt_Encrypt kh nonce aad tagLen plaintext :=
    let ciphertext := stream_xor (kh + byte_sum nonce) plaintext in
    (ciphertext, checksum_tag kh nonce aad ciphertext tagLen);
  bcrypt_Decrypt kh nonce aad tag ciphertext :=
    (stream_xor (kh + byte_sum nonce) ciphertext,
     bool_decide (tag = checksum_tag kh nonce aad ciphertext (length tag)));
  maxPlaintextLen := 68719476704;
|}.

(** *** The data of aes_test.go *)

Definition test_kh : KEY_HANDLE := 1.

Definition test_nonce : list byte :=
  [x91; xc7; xa7; x54; x52; xef; x10; xdb; x91; xa8; x6c; xf9].
Definition test_plainText : list byte := [x01; x02; x03].
Definition test_additionalData : list byte := [x05; x05; x07].

(** The mode of TestSealAndOpen. *)
Definition gcm0 : GCMMode := mkGCM test_kh gcmStandardNonceSize gcmTagSize.

(** What [gcm.Seal(nil, nonce, plainText, additionalData)] returns there. *)
Definition test_sealed : list byte :=
  match @GCM_Seal stream_aead gcm0 [] test_nonce test_plainText test_additionalData with
  | Return sealed => sealed
  | Panic => []
  end.

(** [l] with the low bit of its byte [i] flipped. *)
Definition flip_at (i : nat) (l : list byte) : list byte :=
  match l !! i with
  | Some b => <[i := byte_xor b x01]> l
  | None => l
  end.

(** TestSealAndOpenTLS. *)
Definition nonce0 : list byte := [x00; x00; x00; x00; x00; x00; x00; x00; x00; x00; x00; x00].
Definition nonce1 : list byte := [x00; x00; x00; x00; x00; x00; x00; x00; x00; x00; x00; x01].
Definition nonce9 : list byte := [x00; x00; x00; x00; x00; x00; x00; x00; x00; x00; x00; x09].
Definition nonce10 : list byte := [x00; x00; x00; x00; x00; x00; x00; x00; x00; x00; x00; x0a].
Definition nonceMax : list byte := [x00; x00; x00; x00; xff; xff; xff; xff; xff; xff; xff; xff].
Definition tls_additionalData : list byte :=
  [x00; x00; x00; x00; x00; x00; x00; x00; x00; x00; x00; x00; x03].

(** The instance of [TestSealAndOpenTLS]. *)
Definition tls0 : GCMTLS := mkGCMTLS (mkGCM test_kh gcmStandardNonceSize gcmTagSize) 0.

(** The seals of [TestSealAndOpenTLS], in order, and which of them the test
    requires to panic. *)
Definition TestSealAndOpenTLS_seals : list (list byte) :=
  [nonce0; nonce0; nonce1; nonce10; nonce9; nonceMax].
Definition TestSealAndOpenTLS_panics : list bool :=
  [false; true; false; false; true; true].

(** The instance once the test has sealed [nonce0], [nonce1] and [nonce10]. *)
Definition tls11 : GCMTLS := mkGCMTLS (mkGCM test_kh gcmStandardNonceSize gcmTagSize) 11.

(** ** Calls of loadOrStoreAlg one after the other *)

(** The state one call leaves, its result dropped. *)
Definition after_loadOrStoreAlg {V} `{Provider} (w : World V) (c : Caller V) : World V :=
  (loadOrStoreAlg (c_id c) (c_flags c) (c_mode c) (c_fn c) w).2.

(** The state a sequence of calls leaves, each made after the one before
    has returned. *)
Definition loadOrStoreAlg_each {V} `{Provider} (calls : list (Caller V)) (w : World V)
  : World V :=
  foldl after_loadOrStoreAlg w calls.

(** Every [CloseAlgorithmProvider] of the log (newest call first) closed a
    handle that was open when it was called. *)
Fixpoint closes_only_open (log : list call) : bool :=
  match log with
  | [] => true
  | CloseAlgorithmProvider h :: log' =>
      bool_decide (h ∈ open_handles log') && closes_only_open log'
  | OpenAlgorithmProvider _ _ _ :: log' => closes_only_open log'
  end.

(** Callers for examples: the first asks for AES in GCM mode, the second for
    AES in CBC mode with a constructor that fails, the third for GCM again. *)
Definition example_calls : list (Caller Z) :=
  [ mkCaller "AES" 0 "ChainingModeGCM" (λ h, Ok (h * 10));
    mkCaller "AES" 0 "ChainingModeCBC" (λ _, Err (errors_New "no such mode"));
    mkCaller "AES" 0 "ChainingModeGCM" (λ h, Ok (h * 10 + 1)) ].

(** A backend property for examples: one key size, 168 bits. *)
Definition fixed_property : KeyLengthsProperty :=
  λ _, Ok {| MinLength := 168; MaxLength := 168; Increment := 0 |}.

(** A backend property for examples: every handle but 0 reports the AES
    constraints. *)
Definition aes_property : KeyLengthsProperty :=
  λ h, if h =? 0 then Err (NTStatus 3221225480) else Ok aes_lengths.

(** * Properties *)

(** ** lenU32 *)

Lemma clampU32_le (n : Z) : n ≤ math_MaxUint32 → clampU32 n = n.
Proof.
  intros Hn. unfold clampU32. rewrite Z.gtb_ltb.
  destruct (Z.ltb_spec math_MaxUint32 n); [lia | reflexivity].
Qed.

Lemma clampU32_gt (n : Z) : math_MaxUint32 < n → clampU32 n = math_MaxUint32.
Proof.
  intros Hn. unfold clampU32. rewrite Z.gtb_ltb.
  destruct (Z.ltb_spec math_MaxUint32 n); [reflexivity | lia].
Qed.

Example clampU32_5GiB : clampU32 5368709120 = 4294967295.
Proof. reflexivity. Qed.

Example lenU32_small : lenU32 test_plainText = 3.
Proof. reflexivity. Qed.

(** A slice of 2^32 + 5 bytes: the length is clamped. *)
Example lenU32_large : lenU32 (replicate (Z.to_nat (2 ^ 32 + 5)) x00) = 2 ^ 32 - 1.
Proof.
  unfold lenU32, len. rewrite length_replicate, Z2Nat.id by lia.
  apply clampU32_gt. unfold math_MaxUint32. lia.
Qed.

(** C9: [lenU32 s] is [len s] when that is at most 2^32 - 1 and exactly
    2^32 - 1 otherwise, so it always fits the backend's 32-bit length. *)
Theorem lenU32_clamps (s : list byte) :
  (len s ≤ 2 ^ 32 - 1 → lenU32 s = len s)
  ∧ (2 ^ 32 - 1 < len s → lenU32 s = 2 ^ 32 - 1)
  ∧ 0 ≤ lenU32 s ≤ 2 ^ 32 - 1.
Proof.
  assert (Hmax : math_MaxUint32 = 2 ^ 32 - 1) by reflexivity.
  assert (Hlen : 0 ≤ len s) by (unfold len; lia).
  unfold lenU32. rewrite <- Hmax.
  destruct (Z_le_gt_dec (len s) math_MaxUint32) as [Hle | Hgt].
  - rewrite (clampU32_le _ Hle). repeat split; (lia || (intros; lia)).
  - rewrite (clampU32_gt (len s)) by lia. repeat split; (lia || (intros; lia)).
Qed.

(** ** keyIsAllowed and getKeyLengths *)

Lemma uint32_sub_ge (a b : Z) :
  is_uint32 a → is_uint32 b → b ≤ a → uint32_sub a b = a - b.
Proof.
  unfold is_uint32, uint32_sub, math_MaxUint32. intros Ha Hb Hle.
  apply Z.mod_small. lia.
Qed.

Example keyIsAllowed_aes :
  (keyIsAllowed aes_lengths <$> [0; 64; 128; 160; 192; 256; 320])
  = [false; false; true; false; true; true; false].
Proof. reflexivity. Qed.

(** C4: a bit length is accepted iff it lies between the minimum and the
    maximum and, for a positive increment, is the minimum plus a multiple of
    the increment; for a zero increment only the minimum is accepted. *)
Theorem keyIsAllowed_iff (lengths : KEY_LENGTHS_STRUCT) (bits : Z) :
  wf_KEY_LENGTHS lengths → is_uint32 bits →
  keyIsAllowed lengths bits = true
  ↔ MinLength lengths ≤ bits ≤ MaxLength lengths
    ∧ (0 < Increment lengths → (bits - MinLength lengths) mod Increment lengths = 0)
    ∧ (Increment lengths = 0 → bits = MinLength lengths).
Proof.
  intros (Hmin & Hmax & Hinc) Hbits. unfold keyIsAllowed.
  rewrite Z.gtb_ltb.
  destruct (Z.ltb_spec bits (MinLength lengths)) as [Hlt | Hge]; simpl.
  { split; [discriminate | lia]. }
  destruct (Z.ltb_spec (MaxLength lengths) bits) as [Hgt | Hle]; simpl.
  { split; [discriminate | lia]. }
  destruct (Z.eqb_spec (Increment lengths) 0) as [Hz | Hnz].
  - rewrite Z.eqb_eq. split; [intros ->; lia | intros (_ & _ & H); auto].
  - assert (Hpos : 0 < Increment lengths) by (unfold is_uint32 in Hinc; lia).
    rewrite uint32_sub_ge by assumption.
    rewrite Z.rem_mod_nonneg by lia. rewrite Z.eqb_eq.
    split; [intros H; repeat split; (lia || auto) | intros (_ & H & _); auto].
Qed.

Lemma keyIsAllowed_iff_witness :
  keyIsAllowed aes_lengths 192 = true
  ↔ MinLength aes_lengths ≤ 192 ≤ MaxLength aes_lengths
    ∧ (0 < Increment aes_lengths → (192 - MinLength aes_lengths) mod Increment aes_lengths = 0)
    ∧ (Increment aes_lengths = 0 → 192 = MinLength aes_lengths).
Proof.
  apply (keyIsAllowed_iff aes_lengths 192).
  - unfold wf_KEY_LENGTHS, is_uint32, math_MaxUint32; simpl; lia.
  - unfold is_uint32, math_MaxUint32; lia.
Defined.

Lemma invalid_KEY_LENGTHS_iff (lengths : KEY_LENGTHS_STRUCT) :
  invalid_KEY_LENGTHS lengths = true
  ↔ MinLength lengths > MaxLength lengths
    ∨ (Increment lengths = 0 ∧ MinLength lengths ≠ MaxLength lengths).
Proof.
  unfold invalid_KEY_LENGTHS.
  rewrite orb_true_iff, andb_true_iff, negb_true_iff, Z.gtb_ltb, Z.ltb_lt,
    Z.eqb_eq, Z.eqb_neq.
  lia.
Qed.

Example getKeyLengths_aes : @getKeyLengths aes_property 7 = Ok aes_lengths.
Proof. reflexivity. Qed.

Example getKeyLengths_read_fails : @getKeyLengths aes_property 0 = Err (NTStatus 3221225480).
Proof. reflexivity. Qed.

Example getKeyLengths_rejects :
  (λ l, @getKeyLengths (λ _, Ok l) 7) <$>
    [ {| MinLength := 256; MaxLength := 128; Increment := 64 |};
      {| MinLength := 128; MaxLength := 256; Increment := 0 |};
      {| MinLength := 128; MaxLength := 128; Increment := 0 |} ]
  = [ Err (errors_New "invalid BCRYPT_KEY_LENGTHS_STRUCT");
      Err (errors_New "invalid BCRYPT_KEY_LENGTHS_STRUCT");
      Ok {| MinLength := 128; MaxLength := 128; Increment := 0 |} ].
Proof. reflexivity. Qed.



(** C10: a structure that [getKeyLengths] returns always allows its own
    minimum length as a key size. *)
Theorem keyIsAllowed_MinLength `{KeyLengthsProperty} (h : HANDLE) (lengths : KEY_LENGTHS_STRUCT) :
  getKeyLengths h = Ok lengths →
  keyIsAllowed lengths (MinLength lengths) = true.
Proof.
  unfold getKeyLengths.
  destruct (GetProperty_KEY_LENGTHS h) as [l | e]; [| discriminate].
  destruct (invalid_KEY_LENGTHS l) eqn:Hinv; [discriminate |].
  intros [= ->].
  assert (Hvalid : ¬ (MinLength lengths > MaxLength lengths
                      ∨ (Increment lengths = 0 ∧ MinLength lengths ≠ MaxLength lengths))).
  { intros Hm. apply invalid_KEY_LENGTHS_iff in Hm. congruence. }
  unfold keyIsAllowed, uint32_sub.
  rewrite Z.ltb_irrefl, Z.gtb_ltb. simpl.
  destruct (Z.ltb_spec (MaxLength lengths) (MinLength lengths)) as [Hgt | _]; [lia |].
  destruct (Z.eqb_spec (Increment lengths) 0) as [_ | Hnz].
  - apply Z.eqb_refl.
  - rewrite Z.sub_diag, Z.mod_0_l by lia. rewrite Z.rem_0_l by exact Hnz.
    reflexivity.
Qed.

Lemma keyIsAllowed_MinLength_witness :
  keyIsAllowed aes_lengths (MinLength aes_lengths) = true.
Proof.
  apply (@keyIsAllowed_MinLength aes_property 7 aes_lengths). reflexivity.
Defined.

(** ** loadOrStoreAlg: one caller *)

Section OneCaller.
Context {V : Type} `{Provider}.
Implicit Types (w : World V) (fn : newAlgEntryFn V).

(** A cache hit returns the cached value and calls neither the backend nor [fn]. *)
Lemma loadOrStoreAlg_hit id flags mode fn w v :
  algCache w !! (id, flags, mode) = Some v →
  loadOrStoreAlg id flags mode fn w = (Ok v, w).
Proof. intros Hhit. unfold loadOrStoreAlg, Map_Load. cbv zeta. rewrite Hhit. reflexivity. Qed.

(** On a miss, with the backend and [fn] both succeeding, the new value is
    stored under the key and the handle stays open. *)
Lemma loadOrStoreAlg_miss id flags mode fn w h v :
  algCache w !! (id, flags, mode) = None →
  bcrypt_OpenAlgorithmProvider id flags (backend_log w) = Ok h →
  fn h = Ok v →
  loadOrStoreAlg id flags mode fn w
  = (Ok v, mkWorld (<[(id, flags, mode) := v]> (algCache w))
                   (OpenAlgorithmProvider id flags (Ok h) :: backend_log w)).
Proof.
  intros Hmiss Hopen Hfn. unfold loadOrStoreAlg, Map_Load, do_open, Map_LoadOrStore.
  cbv zeta. rewrite Hmiss, Hopen, Hfn. simpl. rewrite Hmiss. reflexivity.
Qed.

(** C6: on a cache miss, a failing open is propagated with the cache
    untouched; a failing constructor is propagated after the handle just
    opened has been closed, again with the cache untouched. *)
Theorem loadOrStoreAlg_failures id flags mode fn w :
  algCache w !! (id, flags, mode) = None →
  (∀ err, bcrypt_OpenAlgorithmProvider id flags (backend_log w) = Err err →
     loadOrStoreAlg id flags mode fn w
     = (Err err,
        mkWorld (algCache w) (OpenAlgorithmProvider id flags (Err err) :: backend_log w)))
  ∧ (∀ h err, bcrypt_OpenAlgorithmProvider id flags (backend_log w) = Ok h →
       fn h = Err err →
       loadOrStoreAlg id flags mode fn w
       = (Err err,
          mkWorld (algCache w)
            (CloseAlgorithmProvider h :: OpenAlgorithmProvider id flags (Ok h) :: backend_log w))
       ∧ h ∉ open_handles
               (CloseAlgorithmProvider h :: OpenAlgorithmProvider id flags (Ok h) :: backend_log w)).
Proof.
  intros Hmiss. split.
  - intros err Hopen. unfold loadOrStoreAlg, Map_Load, do_open.
    cbv zeta. rewrite Hmiss, Hopen. reflexivity.
  - intros h err Hopen Hfn. split.
    + unfold loadOrStoreAlg, Map_Load, do_open, do_close.
      cbv zeta. rewrite Hmiss, Hopen, Hfn. reflexivity.
    + simpl. apply not_elem_of_difference. right. apply elem_of_singleton. reflexivity.
Qed.

(** Whenever the call fails, the cache is as it was before. *)
Lemma loadOrStoreAlg_error_keeps_cache id flags mode fn w err w' :
  loadOrStoreAlg id flags mode fn w = (Err err, w') →
  algCache w' = algCache w.
Proof.
  unfold loadOrStoreAlg, Map_Load, do_open, do_close, Map_LoadOrStore.
  cbv zeta. destruct (algCache w !! (id, flags, mode)) eqn:Hlook; [discriminate |].
  simpl. destruct (bcrypt_OpenAlgorithmProvider id flags (backend_log w)) as [h | e].
  - destruct (fn h) as [v | e].
    + simpl. rewrite Hlook. discriminate.
    + intros [= ? <-]. reflexivity.
  - intros [= ? <-]. reflexivity.
Qed.

End OneCaller.

Lemma loadOrStoreAlg_failures_witness :
  @loadOrStoreAlg Z counting_provider "" 0 "ChainingModeGCM" picky_fn empty_world
  = (Err (NTStatus 3221226021),
     mkWorld ∅ [OpenAlgorithmProvider "" 0 (Err (NTStatus 3221226021))])
  ∧ @loadOrStoreAlg Z counting_provider "AES" 0 "ChainingModeGCM" picky_fn busy_world
    = (Err (errors_New "no such mode"),
       mkWorld ∅ [CloseAlgorithmProvider 2; OpenAlgorithmProvider "AES" 0 (Ok 2);
                  CloseAlgorithmProvider 1; OpenAlgorithmProvider "RNG" 0 (Ok 1)]).
Proof.
  split.
  - apply (@loadOrStoreAlg_failures Z counting_provider "" 0 "ChainingModeGCM"
             picky_fn empty_world); reflexivity.
  - apply (@loadOrStoreAlg_failures Z counting_provider "AES" 0 "ChainingModeGCM"
             picky_fn busy_world); reflexivity.
Defined.

(** ** loadOrStoreAlg: concurrent callers *)

Section Concurrent.
Context {V : Type} `{Provider}.
Implicit Types (w : World V) (cfg : Config V) (gs : list (Caller V * pc V)).

(** What every interleaving keeps true. *)
Record cache_inv (callers : list (Caller V)) (cfg : Config V) : Prop := {
  inv_callers : (goroutines cfg).*1 = callers;
  inv_nodup : NoDup (held_handles (goroutines cfg));
  inv_open : ∀ h, h ∈ held_handles (goroutines cfg) →
                  h ∈ open_handles (backend_log (world cfg));
  inv_size : size (open_handles (backend_log (world cfg)))
             = (size (algCache (world cfg)) + length (held_handles (goroutines cfg)))%nat;
  inv_returned : ∀ c v, (c, Returned (Ok v)) ∈ goroutines cfg →
                        algCache (world cfg) !! caller_key c = Some v;
  inv_loser : ∀ c h v, (c, AtCloseLoser h v) ∈ goroutines cfg →
                       algCache (world cfg) !! caller_key c = Some v;
  inv_dom : ∀ k, is_Some (algCache (world cfg) !! k) →
                 ∃ c, c ∈ callers ∧ caller_key c = k;
}.

Lemma start_inv callers : cache_inv callers (start callers).
Proof.
  unfold start. split; simpl.
  - rewrite <- list_fmap_compose. apply list_fmap_id.
  - replace (held_handles _) with (@nil ALG_HANDLE); [constructor |].
    unfold held_handles. induction callers; [reflexivity | simpl; assumption].
  - intros h. replace (held_handles _) with (@nil ALG_HANDLE); [set_solver |].
    unfold held_handles. induction callers; [reflexivity | simpl; assumption].
  - replace (held_handles _) with (@nil ALG_HANDLE); [reflexivity |].
    unfold held_handles. induction callers; [reflexivity | simpl; assumption].
  - intros c v Hin. apply list_elem_of_fmap in Hin as (c' & Heq & _). discriminate.
  - intros c h v Hin. apply list_elem_of_fmap in Hin as (c' & Heq & _). discriminate.
  - intros k [v Hv]. rewrite lookup_empty in Hv. discriminate.
Qed.

Lemma held_handles_middle gs1 t gs2 :
  held_handles (gs1 ++ t :: gs2)
  = held_handles gs1 ++ option_list (held t) ++ held_handles gs2.
Proof.
  unfold held_handles. rewrite omap_app. simpl.
  destruct (held t); reflexivity.
Qed.

Lemma callers_middle gs1 c p p' gs2 :
  (gs1 ++ (c, p') :: gs2).*1 = (gs1 ++ (c, p) :: gs2).*1.
Proof. rewrite !fmap_app, !fmap_cons. reflexivity. Qed.

Lemma elem_of_middle {A} (x t : A) (l1 l2 : list A) :
  x ∈ l1 ++ t :: l2 ↔ x = t ∨ x ∈ l1 ++ l2.
Proof. rewrite !elem_of_app, elem_of_cons. tauto. Qed.

(** A step that changes neither the world nor the handle held. *)
Lemma quiet_step_inv callers gs1 gs2 c p p' w :
  held (c, p') = held (c, p) →
  (∀ v, p' = Returned (Ok v) → algCache w !! caller_key c = Some v) →
  (∀ h v, p' = AtCloseLoser h v → algCache w !! caller_key c = Some v) →
  cache_inv callers (mkConfig w (gs1 ++ (c, p) :: gs2)) →
  cache_inv callers (mkConfig w (gs1 ++ (c, p') :: gs2)).
Proof.
  intros Hheld Hret Hlose [Hc Hnd Hop Hsz Hr Hl Hd]. simpl in *.
  assert (Hsame : held_handles (gs1 ++ (c, p') :: gs2)
                  = held_handles (gs1 ++ (c, p) :: gs2)).
  { rewrite !held_handles_middle, Hheld. reflexivity. }
  split; simpl.
  - rewrite (callers_middle gs1 c p p' gs2). exact Hc.
  - rewrite Hsame. exact Hnd.
  - rewrite Hsame. exact Hop.
  - rewrite Hsame. exact Hsz.
  - intros c' v Hin. apply elem_of_middle in Hin as [[= -> <-] | Hin].
    + apply Hret. reflexivity.
    + apply Hr. apply elem_of_middle. right. exact Hin.
  - intros c' h v Hin. apply elem_of_middle in Hin as [[= -> <-] | Hin].
    + apply (Hlose h). reflexivity.
    + apply (Hl c' h). apply elem_of_middle. right. exact Hin.
  - exact Hd.
Qed.

(** A change of the backend log alone does not disturb what the invariant
    says about the cache. *)
Lemma cache_facts_inv callers gs1 gs2 c p p' w log' :
  (∀ v, p' = Returned (Ok v) → algCache w !! caller_key c = Some v) →
  (∀ h v, p' ≠ AtCloseLoser h v) →
  cache_inv callers (mkConfig w (gs1 ++ (c, p) :: gs2)) →
  (gs1 ++ (c, p') :: gs2).*1 = callers
  ∧ (∀ c' v, (c', Returned (Ok v)) ∈ gs1 ++ (c, p') :: gs2 →
             algCache (mkWorld (algCache w) log') !! caller_key c' = Some v)
  ∧ (∀ c' h v, (c', AtCloseLoser h v) ∈ gs1 ++ (c, p') :: gs2 →
               algCache (mkWorld (algCache w) log') !! caller_key c' = Some v).
Proof.
  intros Hret Hlose [Hc _ _ _ Hr Hl _]. simpl in *. repeat split.
  - rewrite (callers_middle gs1 c p p' gs2). exact Hc.
  - intros c' v Hin. apply elem_of_middle in Hin as [[= -> <-] | Hin].
    + apply Hret. reflexivity.
    + apply Hr. apply elem_of_middle. right. exact Hin.
  - intros c' h v Hin. apply elem_of_middle in Hin as [[= -> Hp] | Hin].
    + exfalso. apply (Hlose h v). symmetry. exact Hp.
    + apply (Hl c' h). apply elem_of_middle. right. exact Hin.
Qed.

(** The open succeeds: the goroutine now holds a handle no one else holds. *)
Lemma open_step_inv callers gs1 gs2 c w h :
  fresh_handles →
  bcrypt_OpenAlgorithmProvider (c_id c) (c_flags c) (backend_log w) = Ok h →
  cache_inv callers (mkConfig w (gs1 ++ (c, AtOpen) :: gs2)) →
  cache_inv callers
    (mkConfig (mkWorld (algCache w)
                 (OpenAlgorithmProvider (c_id c) (c_flags c) (Ok h) :: backend_log w))
              (gs1 ++ (c, AtFn h) :: gs2)).
Proof.
  intros Hfresh Hopen Hinv.
  pose proof (Hfresh _ _ _ _ Hopen) as Hnew.
  destruct (cache_facts_inv callers gs1 gs2 c AtOpen (AtFn h) w
              (OpenAlgorithmProvider (c_id c) (c_flags c) (Ok h) :: backend_log w))
    as (Hc' & Hr' & Hl'); [discriminate | discriminate | exact Hinv |].
  destruct Hinv as [Hc Hnd Hop Hsz Hr Hl Hd]. simpl in *.
  rewrite held_handles_middle in Hnd, Hop, Hsz. simpl in Hnd, Hop, Hsz.
  split; simpl; try assumption.
  - rewrite held_handles_middle. simpl.
    apply NoDup_app in Hnd as (Hnd1 & Hdisj & Hnd2).
    apply NoDup_app. repeat split; [exact Hnd1 | | ].
    + intros x Hx1 Hx2. apply elem_of_cons in Hx2 as [-> | Hx2].
      * apply Hnew, Hop. apply elem_of_app. left. exact Hx1.
      * exact (Hdisj x Hx1 Hx2).
    + constructor; [| exact Hnd2].
      intros Hin. apply Hnew, Hop. apply elem_of_app. right. exact Hin.
  - intros x. rewrite held_handles_middle. simpl.
    rewrite elem_of_app, elem_of_cons, elem_of_union, elem_of_singleton.
    intros [Hx | [-> | Hx]]; [right | left; reflexivity | right];
      apply Hop, elem_of_app; [left | right]; exact Hx.
  - rewrite held_handles_middle. simpl.
    rewrite size_union by (apply disjoint_singleton_l; exact Hnew).
    rewrite size_singleton, Hsz, !length_app. simpl. lia.
Qed.

(** A goroutine closes the handle it holds. *)
Lemma close_step_inv callers gs1 gs2 c p r w h :
  held (c, p) = Some h →
  (∀ v, r = Ok v → algCache w !! caller_key c = Some v) →
  cache_inv callers (mkConfig w (gs1 ++ (c, p) :: gs2)) →
  cache_inv callers (mkConfig (do_close h w) (gs1 ++ (c, Returned r) :: gs2)).
Proof.
  intros Hheld Hret Hinv.
  destruct (cache_facts_inv callers gs1 gs2 c p (Returned r) w
              (CloseAlgorithmProvider h :: backend_log w))
    as (Hc' & Hr' & Hl'); [ | discriminate | exact Hinv |].
  { intros v [= ->]. apply Hret. reflexivity. }
  destruct Hinv as [Hc Hnd Hop Hsz Hr Hl Hd]. simpl in *.
  rewrite held_handles_middle, Hheld in Hnd, Hop, Hsz. simpl in Hnd, Hop, Hsz.
  apply NoDup_app in Hnd as (Hnd1 & Hdisj & Hnd2).
  apply NoDup_cons in Hnd2 as (Hnotin2 & Hnd2).
  assert (Hnotin1 : h ∉ held_handles gs1).
  { intros Hin. apply (Hdisj h Hin). apply elem_of_cons. left. reflexivity. }
  unfold do_close. split; simpl; try assumption.
  - rewrite held_handles_middle. simpl. apply NoDup_app. repeat split; try assumption.
    intros x Hx1 Hx2. apply (Hdisj x Hx1). apply elem_of_cons. right. exact Hx2.
  - intros x. rewrite held_handles_middle. simpl.
    rewrite elem_of_app, elem_of_difference, elem_of_singleton.
    intros Hx. split.
    + apply Hop. rewrite elem_of_app, elem_of_cons. tauto.
    + intros ->. destruct Hx; contradiction.
  - rewrite held_handles_middle. simpl.
    assert (Hin : h ∈ open_handles (backend_log w)).
    { apply Hop. apply elem_of_app. right. apply elem_of_cons. left. reflexivity. }
    rewrite size_difference by (apply singleton_subseteq_l; exact Hin).
    rewrite size_singleton, Hsz, !length_app. simpl. lia.
Qed.

(** A goroutine wins the insert: its value enters the cache with its handle. *)
Lemma store_step_inv callers gs1 gs2 c w h v :
  algCache w !! caller_key c = None →
  cache_inv callers (mkConfig w (gs1 ++ (c, AtLoadOrStore h v) :: gs2)) →
  cache_inv callers
    (mkConfig (mkWorld (<[caller_key c := v]> (algCache w)) (backend_log w))
              (gs1 ++ (c, Returned (Ok v)) :: gs2)).
Proof.
  intros Hmiss [Hc Hnd Hop Hsz Hr Hl Hd]. simpl in *.
  rewrite held_handles_middle in Hnd, Hop, Hsz. simpl in Hnd, Hop, Hsz.
  apply NoDup_app in Hnd as (Hnd1 & Hdisj & Hnd2).
  apply NoDup_cons in Hnd2 as (Hnotin2 & Hnd2).
  assert (Hother : ∀ (c' : Caller V) x, algCache w !! caller_key c' = Some x →
                           <[caller_key c := v]> (algCache w) !! caller_key c' = Some x).
  { intros c' x Hx. rewrite lookup_insert_ne; [exact Hx |].
    intros Heq. rewrite Heq, Hx in Hmiss. discriminate. }
  split; simpl.
  - rewrite (callers_middle gs1 c (AtLoadOrStore h v)). exact Hc.
  - rewrite held_handles_middle. simpl. apply NoDup_app. repeat split; try assumption.
    intros x Hx1 Hx2. apply (Hdisj x Hx1). apply elem_of_cons. right. exact Hx2.
  - intros x. rewrite held_handles_middle. simpl. intros Hx.
    apply Hop. revert Hx. rewrite !elem_of_app, elem_of_cons. tauto.
  - rewrite held_handles_middle. simpl.
    rewrite map_size_insert_None by exact Hmiss.
    rewrite Hsz, !length_app. simpl. lia.
  - intros c' x Hin. apply elem_of_middle in Hin as [[= -> <-] | Hin].
    + apply lookup_insert_eq.
    + apply Hother, Hr. apply elem_of_middle. right. exact Hin.
  - intros c' h' x Hin. apply elem_of_middle in Hin as [[=] | Hin].
    apply Hother, (Hl c' h'). apply elem_of_middle. right. exact Hin.
  - intros k Hk. destruct (decide (caller_key c = k)) as [<- | Hne].
    + exists c. split; [| reflexivity].
      rewrite <- Hc, fmap_app, fmap_cons. simpl.
      apply elem_of_app. right. apply elem_of_cons. left. reflexivity.
    + rewrite lookup_insert_ne in Hk by exact Hne. apply Hd. exact Hk.
Qed.

Lemma step_middle gs1 gs2 c p w :
  step (length gs1) (mkConfig w (gs1 ++ (c, p) :: gs2))
  = match step_caller c p w with
    | Some (p', w') => mkConfig w' (gs1 ++ (c, p') :: gs2)
    | None => mkConfig w (gs1 ++ (c, p) :: gs2)
    end.
Proof.
  unfold step. simpl. rewrite list_lookup_middle by reflexivity.
  destruct (step_caller c p w) as [[p' w'] |]; [| reflexivity].
  f_equal. rewrite insert_app_r_alt by lia. rewrite Nat.sub_diag. reflexivity.
Qed.

(** Every step of every goroutine keeps the invariant. *)
Lemma step_inv callers i cfg :
  fresh_handles → cache_inv callers cfg → cache_inv callers (step i cfg).
Proof.
  intros Hfresh Hinv. destruct cfg as [w gs].
  destruct (gs !! i) as [[c p] |] eqn:Hi;
    [| unfold step; simpl; rewrite Hi; exact Hinv].
  apply list_elem_of_split_length in Hi as (gs1 & gs2 & -> & ->).
  rewrite step_middle.
  destruct p as [| | h | h err | h v | h existing | r]; simpl.
  - (* Load *)
    unfold Map_Load. destruct (algCache w !! caller_key c) as [v |] eqn:Hlook.
    + apply (quiet_step_inv callers gs1 gs2 c AtLoad); try done.
      intros v' [= ->]. exact Hlook.
    + apply (quiet_step_inv callers gs1 gs2 c AtLoad); done.
  - (* OpenAlgorithmProvider *)
    destruct (bcrypt_OpenAlgorithmProvider (c_id c) (c_flags c) (backend_log w))
      as [h | err] eqn:Hopen.
    + apply open_step_inv; assumption.
    + destruct (cache_facts_inv callers gs1 gs2 c AtOpen (Returned (Err err)) w
                  (OpenAlgorithmProvider (c_id c) (c_flags c) (Err err) :: backend_log w))
        as (Hc' & Hr' & Hl'); [discriminate | discriminate | exact Hinv |].
      destruct Hinv as [Hc Hnd Hop Hsz Hr Hl Hd]. simpl in *.
      rewrite held_handles_middle in Hnd, Hop, Hsz.
      split; simpl; rewrite ?held_handles_middle; assumption.
  - (* fn *)
    destruct (c_fn c h) as [v | err];
      apply (quiet_step_inv callers gs1 gs2 c (AtFn h)); done.
  - (* close after fn failed *)
    apply (close_step_inv callers gs1 gs2 c (AtCloseFailed h err)); done.
  - (* LoadOrStore *)
    unfold Map_LoadOrStore.
    destruct (algCache w !! caller_key c) as [existing |] eqn:Hlook.
    + replace (mkWorld (algCache w) (backend_log w)) with w by (destruct w; reflexivity).
      apply (quiet_step_inv callers gs1 gs2 c (AtLoadOrStore h v)); try done.
      intros h' v' [= _ ->]. exact Hlook.
    + apply (store_step_inv callers gs1 gs2 c w h v); assumption.
  - (* close after losing the race *)
    apply (close_step_inv callers gs1 gs2 c (AtCloseLoser h existing)); try done.
    intros v [= ->]. apply (inv_loser _ _ Hinv c h v). simpl.
    apply elem_of_middle. left. reflexivity.
  - exact Hinv.
Qed.

Lemma run_inv callers schedule cfg :
  fresh_handles → cache_inv callers cfg → cache_inv callers (run schedule cfg).
Proof.
  intros Hfresh. revert cfg. unfold run.
  induction schedule as [| i schedule IH]; intros cfg Hinv; simpl.
  - exact Hinv.
  - apply IH, step_inv; assumption.
Qed.




(** *** Every caller returns *)











Lemma step_lone (c : Caller V) p w :
  step 0 (mkConfig w [(c, p)])
  = match step_caller c p w with
    | Some (p', w') => mkConfig w' [(c, p')]
    | None => mkConfig w [(c, p)]
    end.
Proof. exact (step_middle [] [] c p w). Qed.

(** A goroutine alone goes through [loadOrStoreAlg] in five steps. *)
Lemma lone_caller_is_loadOrStoreAlg (c : Caller V) w :
  run [0; 0; 0; 0; 0]%nat (mkConfig w [(c, AtLoad)])
  = let r := loadOrStoreAlg (c_id c) (c_flags c) (c_mode c) (c_fn c) w in
    mkConfig r.2 [(c, Returned r.1)].
Proof.
  unfold run, loadOrStoreAlg. cbv zeta. cbn [foldl].
  rewrite step_lone. cbn [step_caller]. fold (caller_key c).
  destruct (Map_Load (algCache w) (caller_key c)) as [v |] eqn:Hlook.
  { rewrite !step_lone. reflexivity. }
  rewrite step_lone. cbn [step_caller].
  destruct (do_open (c_id c) (c_flags c) w) as [[h | err] w1] eqn:Hopen.
  2: { rewrite !step_lone. reflexivity. }
  rewrite step_lone. cbn [step_caller].
  destruct (c_fn c h) as [v | err].
  2: { rewrite !step_lone. reflexivity. }
  rewrite step_lone. cbn [step_caller].
  assert (Hmiss : algCache w1 !! caller_key c = None).
  { unfold do_open in Hopen. injection Hopen as _ <-. exact Hlook. }
  unfold Map_LoadOrStore. rewrite Hmiss. rewrite step_lone. reflexivity.
Qed.


End Concurrent.

(** ** The example backend hands out fresh handles *)

Lemma open_handles_le_max (log : list call) (h : ALG_HANDLE) :
  h ∈ open_handles log → h ≤ max_handle log.
Proof.
  induction log as [| [id flags [h' | e] | h'] log IH]; simpl.
  - intros Hin. apply not_elem_of_empty in Hin. contradiction.
  - rewrite elem_of_union, elem_of_singleton. intros [-> | Hin]; [lia |].
    specialize (IH Hin). lia.
  - exact IH.
  - rewrite elem_of_difference. intros [Hin _]. exact (IH Hin).
Qed.

Lemma counting_provider_fresh : @fresh_handles counting_provider.
Proof.
  intros id flags log h. unfold bcrypt_OpenAlgorithmProvider, counting_provider.
  destruct (decide (id = ""%string)); [discriminate |].
  intros [= <-] Hin. apply open_handles_le_max in Hin. lia.
Qed.

Example race_result :
  let cfg := @run Z counting_provider race_schedule (start race_callers) in
  (goroutines cfg).*2 = [Returned (Ok 20); Returned (Ok 20)]
  ∧ algCache (world cfg) !! ("AES"%string, 0, "ChainingModeGCM"%string) = Some 20
  ∧ backend_log (world cfg)
    = [CloseAlgorithmProvider 1;
       OpenAlgorithmProvider "AES" 0 (Ok 2); OpenAlgorithmProvider "AES" 0 (Ok 1)].
Proof. vm_compute. repeat split. Qed.


(** ** The stand-in backend is a correct AEAD *)

Lemma byte_xor_involutive (a k : byte) : byte_xor (byte_xor a k) k = a.
Proof.
  unfold byte_xor.
  destruct (Byte.to_bits a) as (a0 & a1 & a2 & a3 & a4 & a5 & a6 & a7) eqn:Ha.
  destruct (Byte.to_bits k) as (k0 & k1 & k2 & k3 & k4 & k5 & k6 & k7) eqn:Hk.
  rewrite Byte.to_bits_of_bits.
  rewrite !xorb_assoc, !xorb_nilpotent, !xorb_false_r.
  rewrite <- Ha. apply Byte.of_bits_to_bits.
Qed.

Lemma stream_xor_involutive (seed : Z) (data : list byte) :
  stream_xor seed (stream_xor seed data) = data.
Proof.
  revert seed. induction data as [| b rest IH]; intros seed; simpl.
  - reflexivity.
  - rewrite byte_xor_involutive, IH. reflexivity.
Qed.

Lemma stream_xor_length (seed : Z) (data : list byte) :
  length (stream_xor seed data) = length data.
Proof.
  revert seed. induction data as [| b rest IH]; intros seed; simpl.
  - reflexivity.
  - rewrite IH. reflexivity.
Qed.

Lemma checksum_tag_length kh nonce aad ciphertext tagLen :
  length (checksum_tag kh nonce aad ciphertext tagLen) = tagLen.
Proof. unfold checksum_tag. rewrite length_fmap. apply length_seq. Qed.

Lemma stream_aead_correct : @AEAD_correct stream_aead.
Proof.
  intros kh nonce aad tagLen plaintext. simpl. repeat split.
  - apply stream_xor_length.
  - apply checksum_tag_length.
  - rewrite stream_xor_involutive, checksum_tag_length.
    rewrite bool_decide_eq_true_2 by reflexivity. reflexivity.
Qed.

(** ** GCM: construction *)

(** The four constructions of TestNewGCMNonce: only the first fails. *)
Example TestNewGCMNonce :
  is_Err (NewGCM test_kh (gcmStandardNonceSize - 1) (gcmTagSize - 1)) = true
  ∧ NewGCM test_kh (gcmStandardNonceSize - 1) gcmTagSize = Ok (mkGCM test_kh 11 16)
  ∧ NewGCM test_kh gcmStandardNonceSize (gcmTagSize - 1) = Ok (mkGCM test_kh 12 15)
  ∧ NewGCM test_kh gcmStandardNonceSize gcmTagSize = Ok (mkGCM test_kh 12 16).
Proof. repeat split. Qed.

(** C8: constructing a GCM mode fails when the nonce length and the tag
    length both differ from the standard 12 and 16 bytes, and succeeds when
    at most one of them does. *)
Theorem NewGCM_sizes (kh : KEY_HANDLE) (nonceSize tagSize : Z) :
  (nonceSize ≠ gcmStandardNonceSize ∧ tagSize ≠ gcmTagSize →
     is_Err (NewGCM kh nonceSize tagSize) = true)
  ∧ (nonceSize = gcmStandardNonceSize ∨ tagSize = gcmTagSize →
     NewGCM kh nonceSize tagSize = Ok (mkGCM kh nonceSize tagSize)).
Proof.
  unfold NewGCM.
  destruct (Z.eqb_spec nonceSize gcmStandardNonceSize) as [Hn | Hn];
    destruct (Z.eqb_spec tagSize gcmTagSize) as [Ht | Ht]; simpl; split;
    try reflexivity; intros Hsizes; try reflexivity; tauto.
Qed.

(** ** GCM: seal and open *)

Section GCM.
Context `{AEAD}.

Lemma GCM_Seal_returns g dst nonce plaintext additionalData :
  len nonce = nonceLength g → len plaintext ≤ maxPlaintextLen →
  GCM_Seal g dst nonce plaintext additionalData
  = Return (dst ++ (bcrypt_Encrypt (gcm_kh g) nonce additionalData
                      (Z.to_nat (tagLength g)) plaintext).1
                ++ (bcrypt_Encrypt (gcm_kh g) nonce additionalData
                      (Z.to_nat (tagLength g)) plaintext).2).
Proof.
  intros Hnonce Hlen. unfold GCM_Seal.
  rewrite (proj2 (Z.eqb_eq _ _) Hnonce). simpl.
  rewrite Z.gtb_ltb. destruct (Z.ltb_spec maxPlaintextLen (len plaintext)); [lia |].
  reflexivity.
Qed.

(** A nonce of the wrong length, or a plaintext that is too long, is fatal. *)
Lemma GCM_Seal_panics g dst nonce plaintext additionalData :
  len nonce ≠ nonceLength g ∨ maxPlaintextLen < len plaintext →
  GCM_Seal g dst nonce plaintext additionalData = Panic.
Proof.
  intros Hbad. unfold GCM_Seal.
  destruct (Z.eqb_spec (len nonce) (nonceLength g)) as [Heq | Hne]; simpl;
    [| reflexivity].
  rewrite Z.gtb_ltb. destruct (Z.ltb_spec maxPlaintextLen (len plaintext)); [reflexivity |].
  lia.
Qed.

(** C3: for a nonce of the configured length, sealing and then opening with
    the same nonce and associated data gives the plaintext back, and what
    seal appends is [len plaintext + tagLength] bytes long. *)
Theorem GCM_Seal_Open_roundtrip g dst dst' nonce plaintext additionalData :
  AEAD_correct → 0 ≤ tagLength g →
  len nonce = nonceLength g → len plaintext ≤ maxPlaintextLen →
  ∃ sealed,
    GCM_Seal g dst nonce plaintext additionalData = Return (dst ++ sealed)
    ∧ len sealed = len plaintext + tagLength g
    ∧ opened (GCM_Open g dst' nonce sealed additionalData) = Ok (dst' ++ plaintext).
Proof.
  intros Hok Htag Hnonce Hlen.
  destruct (Hok (gcm_kh g) nonce additionalData (Z.to_nat (tagLength g)) plaintext)
    as (Hct & Htaglen & Hdec).
  set (r := bcrypt_Encrypt (gcm_kh g) nonce additionalData
              (Z.to_nat (tagLength g)) plaintext) in *.
  exists (r.1 ++ r.2). split; [| split].
  - apply GCM_Seal_returns; assumption.
  - unfold len. rewrite length_app, Hct, Htaglen. lia.
  - unfold GCM_Open.
    assert (Hsealed : length (r.1 ++ r.2) = (length r.1 + Z.to_nat (tagLength g))%nat)
      by (rewrite length_app, Htaglen; reflexivity).
    destruct (Z.ltb_spec (len (r.1 ++ r.2)) (tagLength g)) as [Hshort | _].
    { unfold len in Hshort. rewrite Hsealed in Hshort. lia. }
    cbv zeta. rewrite Hsealed.
    replace (length r.1 + Z.to_nat (tagLength g) - Z.to_nat (tagLength g))%nat
      with (length r.1) by lia.
    rewrite take_app_length, drop_app_length, Hdec. reflexivity.
Qed.

(** C2: open either returns the plaintext the backend authenticated, or the
    authentication error; when the input is too short to hold a tag or the
    tag does not verify, it returns that error, no plaintext, and an output
    buffer of zeros. *)
Theorem GCM_Open_authenticates g dst nonce ciphertext additionalData :
  let n := (length ciphertext - Z.to_nat (tagLength g))%nat in
  let decrypted :=
    bcrypt_Decrypt (gcm_kh g) nonce additionalData (drop n ciphertext) (take n ciphertext) in
  let r := GCM_Open g dst nonce ciphertext additionalData in
  (opened r = Err errOpen
   ∨ (tagLength g ≤ len ciphertext ∧ decrypted.2 = true ∧ opened r = Ok (dst ++ decrypted.1)))
  ∧ (len ciphertext < tagLength g ∨ decrypted.2 = false →
     opened r = Err errOpen ∧ Forall (λ b, b = x00) (out_buffer r)).
Proof.
  intros n decrypted r. subst r. unfold GCM_Open.
  destruct (Z.ltb_spec (len ciphertext) (tagLength g)) as [Hshort | Hlong]; simpl.
  - split; [left; reflexivity |]. intros _. split; [reflexivity | constructor].
  - fold n. fold decrypted. destruct (decrypted.2) eqn:Hok; simpl.
    + split; [right; repeat split; assumption |].
      intros [Hlt | Hfalse]; [lia | discriminate].
    + split; [left; reflexivity |]. intros _. split; [reflexivity |].
      apply Forall_replicate. reflexivity.
Qed.

End GCM.

(** *** The tests of aes_test.go on the stand-in backend *)

(** TestSealAndOpen: both round trips, with and without additional data. *)
Example TestSealAndOpen :
  opened (@GCM_Open stream_aead gcm0 [] test_nonce test_sealed test_additionalData)
  = Ok test_plainText
  ∧ (∃ sealed,
       @GCM_Seal stream_aead gcm0 [] test_nonce test_plainText [] = Return sealed
       ∧ opened (@GCM_Open stream_aead gcm0 [] test_nonce sealed []) = Ok test_plainText).
Proof. split; [reflexivity |]. eexists. split; reflexivity. Qed.

(** TestSealAndOpenAuthenticationError: opening without the additional data
    the message was sealed with gives [errOpen]. *)
Example TestSealAndOpenAuthenticationError :
  @GCM_Open stream_aead gcm0 [] test_nonce test_sealed []
  = mkOpened (Err errOpen) [x00; x00; x00].
Proof. reflexivity. Qed.

(** Flipping the low bit of any one byte of the sealed output makes open
    fail, whichever byte it is. *)
Example open_rejects_flipped_bytes :
  (λ i, opened (@GCM_Open stream_aead gcm0 [] test_nonce (flip_at i test_sealed)
                  test_additionalData)) <$> seq 0 (length test_sealed)
  = replicate (length test_sealed) (Err errOpen).
Proof. vm_compute. reflexivity. Qed.

(** TestSealPanic, first half: a nonce one byte short is fatal. *)
Example TestSealPanic :
  @GCM_Seal stream_aead gcm0 [] (replicate 11 x00) test_plainText [] = Panic.
Proof. reflexivity. Qed.

Lemma GCM_Seal_Open_roundtrip_witness :
  ∃ sealed,
    @GCM_Seal stream_aead gcm0 [] test_nonce test_plainText test_additionalData
    = Return ([] ++ sealed)
    ∧ len sealed = len test_plainText + tagLength gcm0
    ∧ opened (@GCM_Open stream_aead gcm0 [] test_nonce sealed test_additionalData)
      = Ok ([] ++ test_plainText).
Proof.
  apply (@GCM_Seal_Open_roundtrip stream_aead gcm0 [] [] test_nonce test_plainText
           test_additionalData).
  - exact stream_aead_correct.
  - vm_compute. discriminate.
  - reflexivity.
  - vm_compute. discriminate.
Defined.

(** ** GCM for TLS records *)

Section GCMTLS.
Context `{AEAD}.

(** A successful seal never lowers the minimum. *)
Lemma GCMTLS_Seal_advances g dst nonce plaintext additionalData out g' :
  GCMTLS_Seal g dst nonce plaintext additionalData = Return (out, g') →
  minNextNonce g ≤ bigUint nonce ∧ minNextNonce g' = bigUint nonce + 1.
Proof.
  unfold GCMTLS_Seal.
  destruct (Z.ltb_spec (bigUint nonce) (minNextNonce g)) as [Hlt | Hge]; [discriminate |].
  destruct (seqCounter nonce =? maxUint64); [discriminate |].
  destruct (GCM_Seal (tls_gcm g) dst nonce plaintext additionalData) as [sealed |];
    [| discriminate].
  intros [= _ <-]. simpl. split; [exact Hge | reflexivity].
Qed.

Lemma seal_each_monotone g nonces plaintext additionalData :
  minNextNonce g ≤ minNextNonce (seal_each g nonces plaintext additionalData).2.
Proof.
  revert g. induction nonces as [| nonce rest IH]; intros g; simpl.
  - lia.
  - destruct (GCMTLS_Seal g [] nonce plaintext additionalData) as [[out g'] |] eqn:Hseal;
      simpl.
    + apply GCMTLS_Seal_advances in Hseal as [Hge Hnext].
      specialize (IH g'). lia.
    + apply IH.
Qed.

(** C1, as the code has it: a seal with a 12-byte nonce succeeds, and moves
    the minimum to nonce + 1, exactly when the nonce is at least the stored
    minimum and its sequence counter is not exhausted; a nonce below the
    minimum panics.  After a seal with some nonce has succeeded, every later
    seal with that nonce panics, whatever was sealed in between. *)
Theorem GCMTLS_Seal_nonce_order g dst nonce plaintext additionalData :
  nonceLength (tls_gcm g) = gcmStandardNonceSize →
  length nonce = 12%nat → len plaintext ≤ maxPlaintextLen →
  (minNextNonce g ≤ bigUint nonce ∧ seqCounter nonce ≠ maxUint64 →
     ∃ out, GCMTLS_Seal g dst nonce plaintext additionalData
            = Return (out, mkGCMTLS (tls_gcm g) (bigUint nonce + 1)))
  ∧ (bigUint nonce < minNextNonce g ∨ seqCounter nonce = maxUint64 →
     GCMTLS_Seal g dst nonce plaintext additionalData = Panic)
  ∧ (∀ out g', GCMTLS_Seal g dst nonce plaintext additionalData = Return (out, g') →
       ∀ later plaintext' additionalData' dst2 plaintext2 additionalData2,
         GCMTLS_Seal (seal_each g' later plaintext' additionalData').2
           dst2 nonce plaintext2 additionalData2 = Panic).
Proof.
  intros Hsize Hnonce Hlen. split; [| split].
  - intros [Hge Hcounter]. unfold GCMTLS_Seal.
    destruct (Z.ltb_spec (bigUint nonce) (minNextNonce g)) as [Hlt | _]; [lia |].
    destruct (Z.eqb_spec (seqCounter nonce) maxUint64) as [Heq | _]; [contradiction |].
    rewrite GCM_Seal_returns; [eexists; reflexivity | | exact Hlen].
    unfold len. rewrite Hnonce, Hsize. reflexivity.
  - intros Hbad. unfold GCMTLS_Seal.
    destruct (Z.ltb_spec (bigUint nonce) (minNextNonce g)) as [Hlt | Hge]; [reflexivity |].
    destruct (Z.eqb_spec (seqCounter nonce) maxUint64) as [Heq | Hne]; [reflexivity |].
    destruct Hbad as [Hlt | Heq]; [lia | contradiction].
  - intros out g' Hseal later plaintext' additionalData' dst2 plaintext2 additionalData2.
    apply GCMTLS_Seal_advances in Hseal as [_ Hnext].
    pose proof (seal_each_monotone g' later plaintext' additionalData') as Hmono.
    unfold GCMTLS_Seal.
    destruct (Z.ltb_spec (bigUint nonce)
                (minNextNonce (seal_each g' later plaintext' additionalData').2))
      as [_ | Hge]; [reflexivity | lia].
Qed.

End GCMTLS.

(** TestSealAndOpenTLS: of the six seals, the second ([nonce0] again), the
    fifth ([nonce9] after [nonce10]) and the sixth ([nonceMax]) panic, and
    the instance ends with the minimum 11. *)
Example TestSealAndOpenTLS :
  @seal_each stream_aead tls0 TestSealAndOpenTLS_seals test_plainText tls_additionalData
  = (TestSealAndOpenTLS_panics, tls11).
Proof. reflexivity. Qed.

(** The rest of TestSealAndOpenTLS: different nonces give different outputs,
    and both open to the plaintext. *)
Example TestSealAndOpenTLS_open :
  ∃ sealed sealed1 g1 g2,
    @GCMTLS_Seal stream_aead tls0 [] nonce0 test_plainText tls_additionalData
    = Return (sealed, g1)
    ∧ @GCMTLS_Seal stream_aead g1 [] nonce1 test_plainText tls_additionalData
      = Return (sealed1, g2)
    ∧ sealed ≠ sealed1
    ∧ opened (@GCMTLS_Open stream_aead g2 [] nonce0 sealed tls_additionalData)
      = Ok test_plainText
    ∧ opened (@GCMTLS_Open stream_aead g2 [] nonce1 sealed1 tls_additionalData)
      = Ok test_plainText.
Proof.
  do 4 eexists. split; [reflexivity |]. split; [reflexivity |].
  split; [| split; reflexivity].
  vm_compute. discriminate.
Qed.

(** The last seal of TestSealAndOpenTLS: [nonceMax], read as a big-endian
    integer, is 2^64 - 1 and so not below the minimum 11 the instance holds
    by then; the seal panics all the same, as the test demands. *)
Lemma TestSealAndOpenTLS_nonceMax :
  minNextNonce tls11 = 11
  ∧ bigUint nonceMax = 18446744073709551615
  ∧ length nonceMax = 12%nat
  ∧ @GCMTLS_Seal stream_aead tls11 [] nonceMax test_plainText tls_additionalData = Panic.
Proof. repeat split. Qed.

Lemma GCMTLS_Seal_nonce_order_witness :
  (minNextNonce tls11 ≤ bigUint nonce10 ∧ seqCounter nonce10 ≠ maxUint64 →
     ∃ out, @GCMTLS_Seal stream_aead tls11 [] nonce10 test_plainText tls_additionalData
            = Return (out, mkGCMTLS (tls_gcm tls11) (bigUint nonce10 + 1)))
  ∧ (bigUint nonce10 < minNextNonce tls11 ∨ seqCounter nonce10 = maxUint64 →
     @GCMTLS_Seal stream_aead tls11 [] nonce10 test_plainText tls_additionalData = Panic)
  ∧ (∀ out g',
       @GCMTLS_Seal stream_aead tls11 [] nonce10 test_plainText tls_additionalData
       = Return (out, g') →
       ∀ later plaintext' additionalData' dst2 plaintext2 additionalData2,
         @GCMTLS_Seal stream_aead
           (@seal_each stream_aead g' later plaintext' additionalData').2
           dst2 nonce10 plaintext2 additionalData2 = Panic).
Proof.
  apply (@GCMTLS_Seal_nonce_order stream_aead tls11 [] nonce10 test_plainText
           tls_additionalData).
  - reflexivity.
  - reflexivity.
  - vm_compute. discriminate.
Defined.

(** * Further properties of cng.go *)

(** ** loadOrStoreAlg: what one call does, and calls in sequence *)

Section Calls.
Context {V : Type} `{Provider}.
Implicit Types (w : World V) (fn : newAlgEntryFn V) (c : Caller V).

(** The four ways through [loadOrStoreAlg]: a hit, a failed open, a failed
    constructor, a stored entry. *)
Lemma loadOrStoreAlg_cases id flags mode fn w :
  (∃ v, algCache w !! (id, flags, mode) = Some v
        ∧ loadOrStoreAlg id flags mode fn w = (Ok v, w))
  ∨ (algCache w !! (id, flags, mode) = None
     ∧ ((∃ err, bcrypt_OpenAlgorithmProvider id flags (backend_log w) = Err err
          ∧ loadOrStoreAlg id flags mode fn w
            = (Err err, mkWorld (algCache w)
                          (OpenAlgorithmProvider id flags (Err err) :: backend_log w)))
        ∨ (∃ h err, bcrypt_OpenAlgorithmProvider id flags (backend_log w) = Ok h
             ∧ fn h = Err err
             ∧ loadOrStoreAlg id flags mode fn w
               = (Err err, mkWorld (algCache w)
                             (CloseAlgorithmProvider h
                              :: OpenAlgorithmProvider id flags (Ok h) :: backend_log w)))
        ∨ (∃ h v, bcrypt_OpenAlgorithmProvider id flags (backend_log w) = Ok h
             ∧ fn h = Ok v
             ∧ loadOrStoreAlg id flags mode fn w
               = (Ok v, mkWorld (<[(id, flags, mode) := v]> (algCache w))
                          (OpenAlgorithmProvider id flags (Ok h) :: backend_log w))))).
Proof.
  unfold loadOrStoreAlg, Map_Load, do_open, do_close, Map_LoadOrStore. cbv zeta.
  destruct (algCache w !! (id, flags, mode)) as [v |] eqn:Hlook.
  { left. exists v. split; reflexivity. }
  right. split; [reflexivity |]. simpl.
  destruct (bcrypt_OpenAlgorithmProvider id flags (backend_log w)) as [h | err].
  - destruct (fn h) as [v | err] eqn:Hfn.
    + right. right. exists h, v. simpl. rewrite Hlook. repeat split. exact Hfn.
    + right. left. exists h, err. repeat split. exact Hfn.
  - left. exists err. repeat split.
Qed.

(** A value the call returns is the value the cache holds under the key
    from then on. *)
Lemma loadOrStoreAlg_stores id flags mode fn w v w' :
  loadOrStoreAlg id flags mode fn w = (Ok v, w') →
  algCache w' !! (id, flags, mode) = Some v.
Proof.
  intros Hcall.
  destruct (loadOrStoreAlg_cases id flags mode fn w)
    as [(v0 & Hhit & Heq) | (Hmiss & [(err & _ & Heq) | [(h & err & _ & _ & Heq)
                                                      | (h & v0 & _ & _ & Heq)]])];
    rewrite Heq in Hcall; try discriminate.
  - injection Hcall as <- <-. exact Hhit.
  - injection Hcall as <- <-. simpl. apply lookup_insert_eq.
Qed.

(** No call removes or replaces an entry. *)
Lemma loadOrStoreAlg_keeps_entries id flags mode fn w k v :
  algCache w !! k = Some v →
  algCache (loadOrStoreAlg id flags mode fn w).2 !! k = Some v.
Proof.
  intros Hk.
  destruct (loadOrStoreAlg_cases id flags mode fn w)
    as [(v0 & Hhit & Heq) | (Hmiss & [(err & _ & Heq) | [(h & err & _ & _ & Heq)
                                                      | (h & v0 & _ & _ & Heq)]])];
    rewrite Heq; simpl; try exact Hk.
  rewrite lookup_insert_ne; [exact Hk |]. intros <-. congruence.
Qed.

Lemma loadOrStoreAlg_each_keeps_entries calls w k v :
  algCache w !! k = Some v →
  algCache (loadOrStoreAlg_each calls w) !! k = Some v.
Proof.
  revert w. unfold loadOrStoreAlg_each.
  induction calls as [| c calls IH]; intros w Hk; simpl.
  - exact Hk.
  - apply IH. unfold after_loadOrStoreAlg. apply loadOrStoreAlg_keeps_entries, Hk.
Qed.

(** Memoization: once a call has returned a value for a key, every later
    call for that key, after any calls in between and with any constructor,
    returns the same value and neither calls the backend nor changes the
    cache. *)
Theorem loadOrStoreAlg_memoizes id flags mode fn w v w1 between fn' :
  loadOrStoreAlg id flags mode fn w = (Ok v, w1) →
  let w2 := loadOrStoreAlg_each between w1 in
  loadOrStoreAlg id flags mode fn' w2 = (Ok v, w2).
Proof.
  intros Hcall w2. apply loadOrStoreAlg_stores in Hcall.
  apply (loadOrStoreAlg_each_keeps_entries between) in Hcall. fold w2 in Hcall.
  unfold loadOrStoreAlg, Map_Load. cbv zeta. rewrite Hcall. reflexivity.
Qed.

(** Frame: a call never touches the entry of another key, whatever its
    outcome. *)
Theorem loadOrStoreAlg_other_keys id flags mode fn w k :
  k ≠ (id, flags, mode) →
  algCache (loadOrStoreAlg id flags mode fn w).2 !! k = algCache w !! k.
Proof.
  intros Hne.
  destruct (loadOrStoreAlg_cases id flags mode fn w)
    as [(v0 & Hhit & Heq) | (Hmiss & [(err & _ & Heq) | [(h & err & _ & _ & Heq)
                                                      | (h & v0 & _ & _ & Heq)]])];
    rewrite Heq; simpl; try reflexivity.
  apply lookup_insert_ne. intros Heq'. apply Hne. symmetry. exact Heq'.
Qed.

Lemma open_then_close (h : ALG_HANDLE) (X : gset ALG_HANDLE) :
  h ∉ X → ({[ h ]} ∪ X) ∖ {[ h ]} = X.
Proof.
  intros Hnew. apply set_eq. intros x.
  rewrite elem_of_difference, elem_of_union, elem_of_singleton. split.
  - intros [[Hx | Hx] Hn]; [contradiction | exact Hx].
  - intros Hx. split; [right; exact Hx | intros ->; contradiction].
Qed.

(** With a backend whose handles are fresh, a call that stores nothing
    leaves the set of open handles as it was (a handle opened for a failed
    constructor is closed again), and a call that stores an entry leaves
    exactly one more handle open. *)
Theorem loadOrStoreAlg_handles id flags mode fn w :
  fresh_handles →
  let w' := (loadOrStoreAlg id flags mode fn w).2 in
  (algCache w' = algCache w
   ∧ open_handles (backend_log w') = open_handles (backend_log w))
  ∨ (algCache w !! (id, flags, mode) = None
     ∧ (∃ h v, fn h = Ok v
               ∧ (h ∉ open_handles (backend_log w))
               ∧ algCache w' = <[(id, flags, mode) := v]> (algCache w)
               ∧ open_handles (backend_log w') = {[ h ]} ∪ open_handles (backend_log w))).
Proof.
  intros Hfresh w'. subst w'.
  destruct (loadOrStoreAlg_cases id flags mode fn w)
    as [(v0 & Hhit & Heq) | (Hmiss & [(err & _ & Heq) | [(h & err & Hopen & _ & Heq)
                                                      | (h & v0 & Hopen & Hfn & Heq)]])];
    rewrite Heq; simpl.
  - left. split; reflexivity.
  - left. split; reflexivity.
  - left. split; [reflexivity |].
    apply open_then_close. exact (Hfresh _ _ _ _ Hopen).
  - right. split; [exact Hmiss |]. exists h, v0.
    pose proof (Hfresh _ _ _ _ Hopen) as Hnew. repeat split; assumption.
Qed.

(** Calls made one after the other leak nothing: from a state with one open
    handle per cache entry, any sequence of calls leads to such a state, and
    never closes a handle that is not open. *)
Theorem loadOrStoreAlg_each_no_leak calls w :
  fresh_handles →
  size (open_handles (backend_log w)) = size (algCache w) →
  closes_only_open (backend_log w) = true →
  let w' := loadOrStoreAlg_each calls w in
  size (open_handles (backend_log w')) = size (algCache w')
  ∧ closes_only_open (backend_log w') = true.
Proof.
  intros Hfresh. revert w. unfold loadOrStoreAlg_each.
  induction calls as [| c calls IH]; intros w Hsize Hlog; simpl.
  - split; assumption.
  - assert (Hstep : size (open_handles (backend_log (after_loadOrStoreAlg w c)))
                    = size (algCache (after_loadOrStoreAlg w c))
                    ∧ closes_only_open (backend_log (after_loadOrStoreAlg w c)) = true).
    { unfold after_loadOrStoreAlg.
      destruct (loadOrStoreAlg_cases (c_id c) (c_flags c) (c_mode c) (c_fn c) w)
        as [(v0 & _ & Heq) | (Hmiss & [(err & _ & Heq) | [(h & err & Hopen & _ & Heq)
                                                       | (h & v0 & Hopen & _ & Heq)]])];
        rewrite Heq; simpl; split; try assumption.
      - rewrite open_then_close by exact (Hfresh _ _ _ _ Hopen). exact Hsize.
      - rewrite Hlog, andb_true_r. apply bool_decide_eq_true_2.
        apply elem_of_union. left. apply elem_of_singleton. reflexivity.
      - rewrite size_union
          by (apply disjoint_singleton_l; exact (Hfresh _ _ _ _ Hopen)).
        rewrite size_singleton, map_size_insert_None by exact Hmiss. lia. }
    destruct Hstep as [Hsize' Hlog']. apply IH; assumption.
Qed.

End Calls.

(** ** loadOrStoreAlg: more about concurrent callers *)

Section ConcurrentHandles.
Context {V : Type} `{Provider}.
Implicit Types (w : World V) (cfg : Config V) (gs : list (Caller V * pc V)).

Lemma held_elem_of gs t h :
  t ∈ gs → held t = Some h → h ∈ held_handles gs.
Proof.
  intros Hin Hheld. unfold held_handles. apply list_elem_of_omap.
  exists t. split; assumption.
Qed.

(** A goroutine only closes a handle that is open. *)
Lemma step_closes_only_open callers i cfg :
  cache_inv callers cfg →
  closes_only_open (backend_log (world cfg)) = true →
  closes_only_open (backend_log (world (step i cfg))) = true.
Proof.
  intros Hinv Hlog. unfold step.
  destruct (goroutines cfg !! i) as [[c p] |] eqn:Hi; [| exact Hlog].
  assert (Hin : (c, p) ∈ goroutines cfg)
    by (apply list_elem_of_lookup; exists i; exact Hi).
  destruct p as [| | h | h err | h v | h existing | r]; simpl; try exact Hlog.
  - unfold Map_Load. destruct (algCache (world cfg) !! caller_key c); exact Hlog.
  - destruct (bcrypt_OpenAlgorithmProvider _ _ _); exact Hlog.
  - destruct (c_fn c h); exact Hlog.
  - rewrite Hlog, andb_true_r. apply bool_decide_eq_true_2.
    apply (inv_open _ _ Hinv). apply (held_elem_of _ _ _ Hin). reflexivity.
  - unfold Map_LoadOrStore.
    destruct (algCache (world cfg) !! caller_key c); simpl; exact Hlog.
  - rewrite Hlog, andb_true_r. apply bool_decide_eq_true_2.
    apply (inv_open _ _ Hinv). apply (held_elem_of _ _ _ Hin). reflexivity.
Qed.

(** No double close: along every interleaving of callers, each
    [CloseAlgorithmProvider] is given a handle that is open at that moment,
    so no handle is closed twice and none is closed that was never opened. *)
Theorem no_double_close (callers : list (Caller V)) (schedule : list nat) :
  fresh_handles →
  closes_only_open (backend_log (world (run schedule (start callers)))) = true.
Proof.
  intros Hfresh.
  assert (Hboth : ∀ cfg, cache_inv callers cfg →
            closes_only_open (backend_log (world cfg)) = true →
            closes_only_open (backend_log (world (run schedule cfg))) = true).
  { unfold run. induction schedule as [| i schedule IH]; intros cfg Hinv Hlog; simpl.
    - exact Hlog.
    - apply IH; [apply step_inv; assumption |].
      apply (step_closes_only_open callers); assumption. }
  apply Hboth; [apply start_inv | reflexivity].
Qed.

(** At every moment of every interleaving, the open handles are accounted
    for: no two goroutines hold the same handle, every handle a goroutine
    holds is open, and the open handles are as many as the cache entries
    plus the handles goroutines hold. *)
Theorem handles_accounted (callers : list (Caller V)) (schedule : list nat) :
  fresh_handles →
  let cfg := run schedule (start callers) in
  NoDup (held_handles (goroutines cfg))
  ∧ (∀ h, h ∈ held_handles (goroutines cfg) →
          h ∈ open_handles (backend_log (world cfg)))
  ∧ size (open_handles (backend_log (world cfg)))
    = (size (algCache (world cfg)) + length (held_handles (goroutines cfg)))%nat.
Proof.
  intros Hfresh cfg.
  assert (Hinv : cache_inv callers cfg) by (apply run_inv, start_inv; exact Hfresh).
  split; [| split].
  - apply (inv_nodup _ _ Hinv).
  - apply (inv_open _ _ Hinv).
  - apply (inv_size _ _ Hinv).
Qed.

(** Where the values of the cache come from. *)
Record made_by_callers (callers : list (Caller V)) cfg : Prop := {
  made_callers : (goroutines cfg).*1 = callers;
  made_pending : ∀ c h v, (c, AtLoadOrStore h v) ∈ goroutines cfg → c_fn c h = Ok v;
  made_cached : ∀ k v, algCache (world cfg) !! k = Some v →
                       ∃ c h, c ∈ callers ∧ caller_key c = k ∧ c_fn c h = Ok v;
}.

Lemma start_made_by_callers callers : made_by_callers callers (start callers).
Proof.
  unfold start. split; simpl.
  - rewrite <- list_fmap_compose. apply list_fmap_id.
  - intros c h v Hin. apply list_elem_of_fmap in Hin as (c' & Heq & _). discriminate.
  - intros k v Hk. rewrite lookup_empty in Hk. discriminate.
Qed.

Lemma step_made_by_callers callers i cfg :
  made_by_callers callers cfg → made_by_callers callers (step i cfg).
Proof.
  intros Hmade. destruct cfg as [w gs].
  destruct (gs !! i) as [[c p] |] eqn:Hi;
    [| unfold step; simpl; rewrite Hi; exact Hmade].
  apply list_elem_of_split_length in Hi as (gs1 & gs2 & -> & ->).
  rewrite step_middle.
  destruct Hmade as [Hc Hp Hk]. simpl in *.
  assert (Hcaller : c ∈ callers).
  { rewrite <- Hc, fmap_app, fmap_cons. simpl.
    apply elem_of_app. right. apply elem_of_cons. left. reflexivity. }
  assert (Hold : ∀ c' h v, (c', AtLoadOrStore h v) ∈ gs1 ++ gs2 → c_fn c' h = Ok v).
  { intros c' h v Hin. apply (Hp c' h v). apply elem_of_middle. right. exact Hin. }
  assert (Hquiet : ∀ p' log',
            (∀ h v, p' = AtLoadOrStore h v → c_fn c h = Ok v) →
            made_by_callers callers
              (mkConfig (mkWorld (algCache w) log') (gs1 ++ (c, p') :: gs2))).
  { intros p' log' Hnew. split; simpl.
    - rewrite (callers_middle gs1 c p p' gs2). exact Hc.
    - intros c' h v Hin. apply elem_of_middle in Hin as [[= -> <-] | Hin].
      + apply Hnew. reflexivity.
      + apply Hold. exact Hin.
    - exact Hk. }
  assert (Hw : mkWorld (algCache w) (backend_log w) = w) by (destruct w; reflexivity).
  destruct p as [| | h | h err | h v | h existing | r]; simpl.
  - unfold Map_Load. destruct (algCache w !! caller_key c);
      rewrite <- Hw; apply Hquiet; discriminate.
  - destruct (bcrypt_OpenAlgorithmProvider (c_id c) (c_flags c) (backend_log w));
      apply Hquiet; discriminate.
  - destruct (c_fn c h) as [v | err] eqn:Hfn; rewrite <- Hw; apply Hquiet.
    + intros h' v' [= <- <-]. exact Hfn.
    + discriminate.
  - apply Hquiet. discriminate.
  - unfold Map_LoadOrStore.
    destruct (algCache w !! caller_key c) as [existing |] eqn:Hlook.
    + apply Hquiet. discriminate.
    + split; simpl.
      * rewrite (callers_middle gs1 c (AtLoadOrStore h v)). exact Hc.
      * intros c' h' v' Hin. apply elem_of_middle in Hin as [[=] | Hin].
        apply Hold. exact Hin.
      * intros k x Hx. destruct (decide (caller_key c = k)) as [<- | Hne].
        -- rewrite lookup_insert_eq in Hx. injection Hx as <-.
           exists c, h. repeat split; [exact Hcaller |].
           apply (Hp c h v). apply elem_of_middle. left. reflexivity.
        -- rewrite lookup_insert_ne in Hx by exact Hne. apply Hk. exact Hx.
  - apply Hquiet. discriminate.
  - split; simpl; [exact Hc | exact Hp | exact Hk].
Qed.

(** Nothing but a caller's own result enters the cache: along every
    interleaving, a value cached under a key is what the constructor of some
    caller with that key returned for a handle. *)
Theorem cached_values_made_by_callers
    (callers : list (Caller V)) (schedule : list nat) (k : cacheKey) (v : V) :
  algCache (world (run schedule (start callers))) !! k = Some v →
  ∃ c h, c ∈ callers ∧ caller_key c = k ∧ c_fn c h = Ok v.
Proof.
  assert (Hrun : ∀ cfg, made_by_callers callers cfg →
                        made_by_callers callers (run schedule cfg)).
  { unfold run. induction schedule as [| i schedule IH]; intros cfg Hmade; simpl.
    - exact Hmade.
    - apply IH, step_made_by_callers, Hmade. }
  apply (made_cached _ _ (Hrun _ (start_made_by_callers callers))).
Qed.

End ConcurrentHandles.

(** ** keyIsAllowed and getKeyLengths: the shape of the allowed sizes *)

(** [keyIsAllowed] on [uint32] values, branch by branch. *)
Lemma keyIsAllowed_in_range (lengths : KEY_LENGTHS_STRUCT) (bits : Z) :
  wf_KEY_LENGTHS lengths → is_uint32 bits → Increment lengths ≠ 0 →
  keyIsAllowed lengths bits = true
  ↔ MinLength lengths ≤ bits ≤ MaxLength lengths
    ∧ (bits - MinLength lengths) mod Increment lengths = 0.
Proof.
  intros (Hmin & Hmax & Hinc) Hbits Hnz. unfold keyIsAllowed. rewrite Z.gtb_ltb.
  destruct (Z.ltb_spec bits (MinLength lengths)) as [Hlt | Hge]; simpl.
  { split; [discriminate | lia]. }
  destruct (Z.ltb_spec (MaxLength lengths) bits) as [Hgt | Hle]; simpl.
  { split; [discriminate | lia]. }
  destruct (Z.eqb_spec (Increment lengths) 0) as [Hz | _]; [contradiction |].
  rewrite uint32_sub_ge by assumption.
  unfold is_uint32 in Hinc. rewrite Z.rem_mod_nonneg by lia. rewrite Z.eqb_eq.
  split; [intros Hmod; split; [lia | exact Hmod] | intros [_ Hmod]; exact Hmod].
Qed.

(** With a positive increment, the allowed sizes are exactly the minimum plus
    a whole number of increments, up to the maximum. *)
Theorem keyIsAllowed_multiples (lengths : KEY_LENGTHS_STRUCT) (bits : Z) :
  wf_KEY_LENGTHS lengths → is_uint32 bits → 0 < Increment lengths →
  keyIsAllowed lengths bits = true
  ↔ ∃ k, 0 ≤ k ∧ bits = MinLength lengths + k * Increment lengths
         ∧ bits ≤ MaxLength lengths.
Proof.
  intros Hwf Hbits Hpos.
  rewrite keyIsAllowed_in_range by (assumption || lia). split.
  - intros [[Hge Hle] Hmod].
    exists ((bits - MinLength lengths) / Increment lengths). repeat split.
    + apply Z.div_pos; lia.
    + pose proof (Z.div_mod (bits - MinLength lengths) (Increment lengths)) as Hdm.
      rewrite Hmod in Hdm. lia.
    + exact Hle.
  - intros (k & Hk & -> & Hle). repeat split.
    + nia.
    + exact Hle.
    + replace (MinLength lengths + k * Increment lengths - MinLength lengths)
        with (k * Increment lengths) by lia.
      apply Z.mod_mul. lia.
Qed.

Lemma keyIsAllowed_multiples_witness :
  keyIsAllowed aes_lengths 256 = true
  ↔ ∃ k, 0 ≤ k ∧ 256 = MinLength aes_lengths + k * Increment aes_lengths
         ∧ 256 ≤ MaxLength aes_lengths.
Proof.
  apply (keyIsAllowed_multiples aes_lengths 256).
  - unfold wf_KEY_LENGTHS, is_uint32, math_MaxUint32; simpl; lia.
  - unfold is_uint32, math_MaxUint32; lia.
  - simpl; lia.
Defined.

(** From an allowed size, the next allowed size is one increment further, if
    that is still within the maximum; no size strictly in between is
    allowed. *)
Theorem keyIsAllowed_next (lengths : KEY_LENGTHS_STRUCT) (bits : Z) :
  wf_KEY_LENGTHS lengths → is_uint32 bits → 0 < Increment lengths →
  keyIsAllowed lengths bits = true →
  (keyIsAllowed lengths (bits + Increment lengths) = true
   ↔ bits + Increment lengths ≤ MaxLength lengths)
  ∧ (∀ d, 0 < d < Increment lengths → keyIsAllowed lengths (bits + d) = false).
Proof.
  intros Hwf Hbits Hpos Hallowed.
  pose proof Hwf as (Hmin & Hmax & Hinc).
  apply keyIsAllowed_in_range in Hallowed as [[Hge Hle] Hmod]; [| assumption .. | lia].
  unfold is_uint32 in *.
  assert (Hshift : ∀ d, (bits + d - MinLength lengths) mod Increment lengths
                        = d mod Increment lengths).
  { intros d. replace (bits + d - MinLength lengths)
      with (d + (bits - MinLength lengths)) by lia.
    rewrite Z.add_mod, Hmod, Z.add_0_r, Z.mod_mod by lia. reflexivity. }
  split.
  - split.
    + intros Hnext. unfold keyIsAllowed in Hnext. rewrite Z.gtb_ltb in Hnext.
      destruct (Z.ltb_spec (MaxLength lengths) (bits + Increment lengths)) as [Hgt | Hok];
        [| exact Hok].
      rewrite orb_true_r in Hnext. discriminate.
    + intros Hok. apply keyIsAllowed_in_range; [assumption | unfold is_uint32; lia | lia |].
      split; [lia |]. rewrite Hshift. apply Z.mod_same. lia.
  - intros d Hd. apply not_true_is_false. intros Hbetween.
    assert (Hle' : bits + d ≤ MaxLength lengths).
    { unfold keyIsAllowed in Hbetween. rewrite Z.gtb_ltb in Hbetween.
      destruct (Z.ltb_spec (MaxLength lengths) (bits + d)) as [Hgt | Hok]; [| exact Hok].
      rewrite orb_true_r in Hbetween. discriminate. }
    apply keyIsAllowed_in_range in Hbetween as [_ Hmod'];
      [| assumption | unfold is_uint32; lia | lia].
    rewrite Hshift, Z.mod_small in Hmod' by lia. lia.
Qed.

Lemma keyIsAllowed_next_witness :
  (keyIsAllowed aes_lengths (192 + Increment aes_lengths) = true
   ↔ 192 + Increment aes_lengths ≤ MaxLength aes_lengths)
  ∧ (∀ d, 0 < d < Increment aes_lengths → keyIsAllowed aes_lengths (192 + d) = false).
Proof.
  apply (keyIsAllowed_next aes_lengths 192).
  - unfold wf_KEY_LENGTHS, is_uint32, math_MaxUint32; simpl; lia.
  - unfold is_uint32, math_MaxUint32; lia.
  - simpl; lia.
  - reflexivity.
Defined.

(** A structure allows some key size exactly when its minimum does not
    exceed its maximum, and then it allows the minimum. *)
Theorem keyIsAllowed_some (lengths : KEY_LENGTHS_STRUCT) :
  ((∃ bits, keyIsAllowed lengths bits = true) ↔ MinLength lengths ≤ MaxLength lengths)
  ∧ (keyIsAllowed lengths (MinLength lengths) = true
     ↔ MinLength lengths ≤ MaxLength lengths).
Proof.
  assert (Hmin : keyIsAllowed lengths (MinLength lengths) = true
                 ↔ MinLength lengths ≤ MaxLength lengths).
  { unfold keyIsAllowed, uint32_sub. rewrite Z.ltb_irrefl, Z.gtb_ltb. simpl.
    destruct (Z.ltb_spec (MaxLength lengths) (MinLength lengths)) as [Hgt | Hle].
    - split; [discriminate | lia].
    - split; [intros _; exact Hle | intros _].
      destruct (Z.eqb_spec (Increment lengths) 0) as [_ | Hnz].
      + apply Z.eqb_refl.
      + rewrite Z.sub_diag, Z.mod_0_l by lia. rewrite Z.rem_0_l by exact Hnz.
        reflexivity. }
  split; [| exact Hmin]. split.
  - intros [bits Hbits]. unfold keyIsAllowed in Hbits. rewrite Z.gtb_ltb in Hbits.
    destruct (Z.ltb_spec bits (MinLength lengths)); [discriminate |].
    destruct (Z.ltb_spec (MaxLength lengths) bits); [discriminate |]. lia.
  - intros Hle. exists (MinLength lengths). apply Hmin. exact Hle.
Qed.

(** A structure [getKeyLengths] returns with a zero increment allows one key
    size only: its minimum, which is also its maximum. *)
Theorem getKeyLengths_single_size `{KeyLengthsProperty}
    (h : HANDLE) (lengths : KEY_LENGTHS_STRUCT) (bits : Z) :
  getKeyLengths h = Ok lengths → Increment lengths = 0 →
  MinLength lengths = MaxLength lengths
  ∧ (keyIsAllowed lengths bits = true ↔ bits = MinLength lengths).
Proof.
  unfold getKeyLengths.
  destruct (GetProperty_KEY_LENGTHS h) as [l | e]; [| discriminate].
  destruct (invalid_KEY_LENGTHS l) eqn:Hinv; [discriminate |].
  intros [= ->] Hzero.
  assert (Heq : MinLength lengths = MaxLength lengths).
  { destruct (Z.eq_dec (MinLength lengths) (MaxLength lengths)) as [Heq | Hne];
      [exact Heq |].
    assert (Hbad : invalid_KEY_LENGTHS lengths = true)
      by (apply invalid_KEY_LENGTHS_iff; right; split; assumption).
    congruence. }
  split; [exact Heq |].
  unfold keyIsAllowed. rewrite Z.gtb_ltb, Hzero, <- Heq. simpl.
  destruct (Z.ltb_spec bits (MinLength lengths)) as [Hlt | Hge]; simpl.
  { split; [discriminate | lia]. }
  destruct (Z.ltb_spec (MinLength lengths) bits) as [Hgt | Hle]; simpl.
  { split; [discriminate | lia]. }
  apply Z.eqb_eq.
Qed.

Lemma getKeyLengths_single_size_witness :
  168 = 168
  ∧ (keyIsAllowed {| MinLength := 168; MaxLength := 168; Increment := 0 |} 192 = true
     ↔ 192 = 168).
Proof.
  apply (@getKeyLengths_single_size fixed_property 7
           {| MinLength := 168; MaxLength := 168; Increment := 0 |} 192);
    reflexivity.
Defined.

(** ** lenU32: the clamped length stays within the slice *)

(** [lenU32 s] never exceeds the length of [s], so a backend told to read
    [lenU32 s] bytes stays within the slice; and a longer slice never gets a
    smaller clamped length. *)
Theorem lenU32_within (s t : list byte) :
  0 ≤ lenU32 s ≤ len s ∧ lenU32 s ≤ lenU32 (s ++ t).
Proof.
  assert (Hclamp : ∀ n, 0 ≤ n → 0 ≤ clampU32 n ≤ n).
  { intros n Hn. destruct (Z_le_gt_dec n math_MaxUint32) as [Hle | Hgt].
    - rewrite clampU32_le by exact Hle. lia.
    - rewrite clampU32_gt by lia. unfold math_MaxUint32 in *. lia. }
  assert (Hmono : ∀ n m, n ≤ m → clampU32 n ≤ clampU32 m).
  { intros n m Hnm.
    destruct (Z_le_gt_dec n math_MaxUint32) as [Hn | Hn];
      destruct (Z_le_gt_dec m math_MaxUint32) as [Hm | Hm];
      rewrite ?(clampU32_le n), ?(clampU32_le m), ?(clampU32_gt n), ?(clampU32_gt m)
        by lia; lia. }
  unfold lenU32, len. split.
  - apply Hclamp. lia.
  - apply Hmono. rewrite length_app. lia.
Qed.

(** ** The further properties at concrete calls *)

Lemma loadOrStoreAlg_memoizes_witness :
  let w1 := mkWorld (<[("AES"%string, 0, "ChainingModeGCM"%string) := 10]> ∅)
              [OpenAlgorithmProvider "AES" 0 (Ok 1)] in
  let w2 := @loadOrStoreAlg_each Z counting_provider example_calls w1 in
  @loadOrStoreAlg Z counting_provider "AES" 0 "ChainingModeGCM" picky_fn w2 = (Ok 10, w2).
Proof.
  apply (@loadOrStoreAlg_memoizes Z counting_provider "AES" 0 "ChainingModeGCM"
           (λ h, Ok (h * 10)) empty_world 10 _ example_calls picky_fn).
  reflexivity.
Defined.

Lemma loadOrStoreAlg_other_keys_witness :
  algCache (@loadOrStoreAlg Z counting_provider "AES" 0 "ChainingModeGCM"
              picky_fn empty_world).2 !! ("AES"%string, 0, "ChainingModeCBC"%string)
  = algCache empty_world !! ("AES"%string, 0, "ChainingModeCBC"%string).
Proof.
  apply (@loadOrStoreAlg_other_keys Z counting_provider "AES" 0 "ChainingModeGCM"
           picky_fn empty_world). discriminate.
Defined.

Lemma loadOrStoreAlg_handles_witness :
  let w' := (@loadOrStoreAlg Z counting_provider "AES" 0 "ChainingModeGCM"
               picky_fn busy_world).2 in
  (algCache w' = algCache busy_world
   ∧ open_handles (backend_log w') = open_handles (backend_log busy_world))
  ∨ (algCache busy_world !! ("AES"%string, 0, "ChainingModeGCM"%string) = None
     ∧ (∃ h v, picky_fn h = Ok v
               ∧ (h ∉ open_handles (backend_log busy_world))
               ∧ algCache w'
                 = <[("AES"%string, 0, "ChainingModeGCM"%string) := v]> (algCache busy_world)
               ∧ open_handles (backend_log w')
                 = {[ h ]} ∪ open_handles (backend_log busy_world))).
Proof.
  exact (@loadOrStoreAlg_handles Z counting_provider "AES" 0 "ChainingModeGCM"
           picky_fn busy_world counting_provider_fresh).
Defined.

Example loadOrStoreAlg_each_example :
  let w := @loadOrStoreAlg_each Z counting_provider example_calls empty_world in
  algCache w !! ("AES"%string, 0, "ChainingModeGCM"%string) = Some 10
  ∧ algCache w !! ("AES"%string, 0, "ChainingModeCBC"%string) = None
  ∧ backend_log w
    = [CloseAlgorithmProvider 2; OpenAlgorithmProvider "AES" 0 (Ok 2);
       OpenAlgorithmProvider "AES" 0 (Ok 1)].
Proof. vm_compute. repeat split. Qed.

Lemma loadOrStoreAlg_each_no_leak_witness :
  let w' := @loadOrStoreAlg_each Z counting_provider example_calls empty_world in
  size (open_handles (backend_log w')) = size (algCache w')
  ∧ closes_only_open (backend_log w') = true.
Proof.
  apply (@loadOrStoreAlg_each_no_leak Z counting_provider example_calls empty_world).
  - exact counting_provider_fresh.
  - reflexivity.
  - reflexivity.
Defined.

Lemma no_double_close_witness :
  closes_only_open
    (backend_log (world (@run Z counting_provider race_schedule (start race_callers))))
  = true.
Proof.
  exact (@no_double_close Z counting_provider race_callers race_schedule
           counting_provider_fresh).
Defined.

Lemma handles_accounted_witness :
  let cfg := @run Z counting_provider [0; 1; 0; 1; 0]%nat (start race_callers) in
  NoDup (held_handles (goroutines cfg))
  ∧ (∀ h, h ∈ held_handles (goroutines cfg) →
          h ∈ open_handles (backend_log (world cfg)))
  ∧ size (open_handles (backend_log (world cfg)))
    = (size (algCache (world cfg)) + length (held_handles (goroutines cfg)))%nat.
Proof.
  exact (@handles_accounted Z counting_provider race_callers [0; 1; 0; 1; 0]%nat
           counting_provider_fresh).
Defined.

(** Half way through the race both goroutines hold a handle and the cache
    is still empty. *)
Example race_half_way :
  let cfg := @run Z counting_provider [0; 1; 0; 1; 0]%nat (start race_callers) in
  held_handles (goroutines cfg) = [1; 2]
  ∧ size (algCache (world cfg)) = 0%nat.
Proof. vm_compute. split; reflexivity. Qed.

Lemma cached_values_made_by_callers_witness :
  ∃ c h, c ∈ race_callers
         ∧ caller_key c = ("AES"%string, 0, "ChainingModeGCM"%string)
         ∧ c_fn c h = Ok 20.
Proof.
  apply (@cached_values_made_by_callers Z counting_provider race_callers race_schedule
           ("AES"%string, 0, "ChainingModeGCM"%string) 20).
  vm_compute. reflexivity.
Defined.
